(** * wav2mp3: tag translation and the conversion pipeline

    A shallow embedding of [wav2mp3_multi_threaded_version_2.py] (and of the
    worker of [wav2mp3.py]).  Python objects are modelled as a class together
    with an attribute dictionary, exceptions as an explicit [Raise] result,
    the file system and the log as a state threaded through a small
    state-and-exception monad.  The external collaborators (mutagen's frame
    constructors and [save], pydub's encoder, pathlib's glob casing) are the
    fields of a [Library] record the functions are parameterised by. *)

From Stdlib Require Import ZArith Ascii String.
From stdpp Require Import gmap strings list fin_maps sorting.

(** ** Python values and exceptions *)

Inductive pyval :=
| PyNone
| PyStr (s : string)
| PyInt (z : Z)
| PyBytes (b : list Byte.byte)
| PyList (l : list string).

(** Python truthiness, as used by [x or default]. *)
Definition truthy (v : pyval) : bool :=
  match v with
  | PyNone => false
  | PyStr s => negb (String.eqb s EmptyString)
  | PyInt z => negb (Z.eqb z 0)
  | PyBytes b => match b with [] => false | _ => true end
  | PyList l => match l with [] => false | _ => true end
  end.

Definition py_or (v d : pyval) : pyval := if truthy v then v else d.

(** Number of values carried by a text payload. *)
Definition values (v : pyval) : list string :=
  match v with
  | PyList l => l
  | PyStr s => [s]
  | _ => []
  end.

Inductive exn :=
| AttributeError (attr : string)
| ValueError
| FileExistsError
| ParseError          (* mutagen could not read a container *)
| FrameError          (* mutagen rejected a frame *)
| SaveError           (* mutagen could not write the tag block *)
| CodecError          (* pydub / ffmpeg decode or encode failure *)
| IndexError
| TypeError.

Inductive result (A : Type) :=
| Ok (a : A)
| Raise (e : exn).
Arguments Ok {A} a.
Arguments Raise {A} e.

(** ** ID3 frames *)

Inductive FrameClass :=
| TIT2 | TALB | TPE1 | TPE2 | TCON | TRCK | TPOS | TYER | TDRC | TCOM | TSSE
| TXXX | COMM | APIC
| OtherFrame (name : string).

#[global] Instance FrameClass_eq_dec : EqDecision FrameClass.
Proof. solve_decision. Defined.

(** A frame object: its class and its attribute dictionary. *)
Record Frame := mkFrame {
  frame_class : FrameClass;
  frame_attrs : gmap string pyval
}.

Definition hasattr (f : Frame) (a : string) : bool :=
  bool_decide (is_Some (frame_attrs f !! a)).

Definition getattr (f : Frame) (a : string) : result pyval :=
  match frame_attrs f !! a with
  | Some v => Ok v
  | None => Raise (AttributeError a)
  end.

Definition isinstance (f : Frame) (c : FrameClass) : bool :=
  bool_decide (frame_class f = c).

(** The tag dictionary of an MP3: frames by hash key. *)
Abbreviation ID3 := (gmap string Frame).

(** ** Paths and the file system *)

Abbreviation path := (list string).

Inductive WavTags :=
| TagsUnreadable                              (* WAVE(...) raises *)
| NoTags                                      (* .tags is None *)
| ID3Tags (frames : list (string * Frame))    (* .tags is an ID3 container *)
| InfoTags (info : gmap string pyval).        (* .tags is a flat key/value container *)

Record WavData := mkWav {
  wav_decodable : bool;
  wav_tags : WavTags
}.

Record Mp3Data := mkMp3 {
  mp3_source : path;           (* which audio was encoded *)
  mp3_bitrate : string;
  mp3_tags : option ID3        (* the tag block, if any *)
}.

Inductive node :=
| Dir
| WavFile (w : WavData)
| Mp3File (m : Mp3Data)
| OtherFile.

Abbreviation FS := (gmap path node).

(** ** Log and console *)

Inductive Level := INFO | WARNING | ERROR.

Inductive Event :=
| EvCloneFailed (key : string) (e : exn)      (* "ID3-Frame {key} konnte nicht geklont werden" *)
| EvFrameSkipped (key : string)               (* "Unbekannter/inkompatibler ID3-Frame uebersprungen" *)
| EvTagsNotCopied (wav : path) (e : exn)      (* "Tags konnten nicht kopiert werden" *)
| EvSkipped (mp3 : path)                      (* "Uebersprungen (bereits vorhanden)" *)
| EvConverted (wav mp3 : path) (copied : nat) (* "Konvertiert: ... (Tags kopiert: n)" *)
| EvError (wav : path) (e : exn)              (* "Fehler bei ..." *)
| EvStart (src dst : path) (bitrate : string) (workers : nat) (dry_run : bool)
| EvDone (converted skipped failed : nat)
| EvTagsRead (wav : string) (tags : gmap string string)  (* "Gelesene Tags aus ..." *)
| EvTagsNotRead (wav : string) (e : exn)                 (* "Tags konnten nicht gelesen werden" *)
| EvSkippedName (mp3 : string)
| EvConvertedNames (wav mp3 : string)
| EvErrorName (wav : string) (e : exn).

Inductive Printed :=
| PrSourceMissing (src : path)
| PrNoWavFiles
| PrFound (n : nat)
| PrDryRunActive
| PrPreview (wav : path) (tags : option WavTags)
| PrNoPreview
| PrDryRunTable (would_convert would_skip : nat)
| PrResultTable (converted skipped failed : nat).

(** The state the program runs in.  [fs_trace] records the file system after
    every write, most recent first: the states another process can observe. *)
Record World := mkWorld {
  fs : FS;
  fs_trace : list FS;
  log : list (Level * Event);
  console : list Printed
}.

(** ** The monad: state plus exceptions *)

Definition M (A : Type) : Type := World → result A * World.

Definition ret {A} (a : A) : M A := λ w, (Ok a, w).

Definition bind {A B} (m : M A) (k : A → M B) : M B :=
  λ w, match m w with
       | (Ok a, w') => k a w'
       | (Raise e, w') => (Raise e, w')
       end.

Definition raise {A} (e : exn) : M A := λ w, (Raise e, w).

(** [try: body / except Exception as e: handler e]. *)
Definition try_except {A} (body : M A) (handler : exn → M A) : M A :=
  λ w, match body w with
       | (Ok a, w') => (Ok a, w')
       | (Raise e, w') => handler e w'
       end.

Definition lift {A} (r : result A) : M A := λ w, (r, w).

Notation "x <- c1 ;; c2" := (bind c1 (λ x, c2))
  (at level 100, c1 at next level, right associativity).
Notation "c1 ;; c2" := (bind c1 (λ _, c2))
  (at level 100, right associativity).

Definition logging (lvl : Level) (ev : Event) : M unit :=
  λ w, (Ok tt, mkWorld (fs w) (fs_trace w) (log w ++ [(lvl, ev)]) (console w)).

Definition console_print (p : Printed) : M unit :=
  λ w, (Ok tt, mkWorld (fs w) (fs_trace w) (log w) (console w ++ [p])).

Definition read_fs : M FS := λ w, (Ok (fs w), w).

Definition write_fs (f : FS) : M unit :=
  λ w, (Ok tt, mkWorld f (f :: fs_trace w) (log w) (console w)).

(** ** External collaborators *)

Record Library := mkLibrary {
  (* attribute values a frame constructor fills in for omitted keywords *)
  framespec_defaults : FrameClass → gmap string pyval;
  (* does the constructor (or [add]) raise on these keyword arguments? *)
  frame_rejected : FrameClass → gmap string pyval → bool;
  (* the key a frame is stored under in a tag dictionary *)
  HashKey : Frame → string;
  (* does writing this tag block to this file raise? *)
  save_fails : path → ID3 → bool;
  (* does encoding to this destination at this bitrate raise? *)
  export_fails : path → string → bool;
  (* pathlib's glob casing: case-sensitive on POSIX, folded on Windows *)
  glob_case_sensitive : bool;
  (* the tag block the encoder writes for the metadata passed to [export] *)
  metadata_block : gmap string string → option ID3
}.

(** ** Tag utilities *)

Section TagUtilities.
Context (lib : Library).

(** [cls(key=value, ...)]: the keyword arguments become attributes, the framespec
    supplies the attributes that were not passed. *)
Definition construct (cls : FrameClass) (kwargs : gmap string pyval) : M Frame :=
  if frame_rejected lib cls kwargs then raise FrameError
  else ret (mkFrame cls (kwargs ∪ framespec_defaults lib cls)).

(** [mp3_tags.add(frame)]: stored under the frame's hash key, replacing
    whatever was there. *)
Definition add (mp3_tags : ID3) (frame : Frame) : ID3 :=
  <[HashKey lib frame := frame]> mp3_tags.

(** The [try] block of [_clone_id3_frame_to]; [None] is falling out of it. *)
Definition clone_try (mp3_tags : ID3) (frame : Frame) : M (option ID3) :=
  if hasattr frame "text" then
    text <- lift (getattr frame "text") ;;
    let cls := frame_class frame in
    fr <- construct cls {[ "encoding" := PyInt 3; "text" := text ]} ;;
    ret (Some (add mp3_tags fr))
  else if isinstance frame COMM then
    lang <- lift (getattr frame "lang") ;;
    desc <- lift (getattr frame "desc") ;;
    text <- lift (getattr frame "text") ;;
    fr <- construct COMM {[ "encoding" := PyInt 3;
                            "lang" := py_or lang (PyStr "eng");
                            "desc" := py_or desc (PyStr EmptyString);
                            "text" := text ]} ;;
    ret (Some (add mp3_tags fr))
  else if isinstance frame APIC then
    mime <- lift (getattr frame "mime") ;;
    type <- lift (getattr frame "type") ;;
    desc <- lift (getattr frame "desc") ;;
    data <- lift (getattr frame "data") ;;
    fr <- construct APIC {[ "encoding" := PyInt 3;
                            "mime" := mime;
                            "type" := type;
                            "desc" := py_or desc (PyStr EmptyString);
                            "data" := data ]} ;;
    ret (Some (add mp3_tags fr))
  else if isinstance frame TXXX then
    desc <- lift (getattr frame "desc") ;;
    text <- lift (getattr frame "text") ;;
    fr <- construct TXXX {[ "encoding" := PyInt 3;
                            "desc" := py_or desc (PyStr EmptyString);
                            "text" := text ]} ;;
    ret (Some (add mp3_tags fr))
  else ret None.

(** Returns the updated tag dictionary (the object is mutated in place in
    the source) and whether a frame was copied. *)
Definition _clone_id3_frame_to (mp3_tags : ID3) (key : string) (frame : Frame)
  : M (ID3 * bool) :=
  r <- try_except
         (t <- clone_try mp3_tags frame ;; ret (inl t))
         (λ e, logging WARNING (EvCloneFailed key e) ;; ret (inr false)) ;;
  match r with
  | inl (Some t) => ret (t, true)
  | inr b => ret (mp3_tags, b)
  | inl None =>
      logging INFO (EvFrameSkipped key) ;;
      ret (mp3_tags, false)
  end.

(** An opened MP3: the file it was read from and its tag dictionary. *)
Record MP3 := mkMP3obj {
  filename : path;
  tags : option ID3
}.

(** [MP3(str(mp3_file))]. *)
Definition MP3_open (mp3_file : path) : M MP3 :=
  f <- read_fs ;;
  match f !! mp3_file with
  | Some (Mp3File m) => ret (mkMP3obj mp3_file (mp3_tags m))
  | _ => raise ParseError
  end.

(** [if mp3_audio.tags is None: add_tags() else: tags.clear()]: either way an
    empty dictionary. *)
Definition fresh_tags (mp3_audio : MP3) : ID3 :=
  match tags mp3_audio with
  | None => ∅
  | Some t => ∅
  end.

(** [mp3_audio.save()] with the tag dictionary [t]: the tag block of the
    file is rewritten in place, the audio stays. *)
Definition save (mp3_audio : MP3) (t : ID3) : M unit :=
  if save_fails lib (filename mp3_audio) t then raise SaveError
  else
    f <- read_fs ;;
    match f !! filename mp3_audio with
    | Some (Mp3File m) =>
        write_fs (<[filename mp3_audio :=
                     Mp3File (mkMp3 (mp3_source m) (mp3_bitrate m) (Some t))]> f)
    | _ => raise SaveError
    end.

(** The loop [for key, frame in wav_id3.items()]. *)
Fixpoint clone_all (frames : list (string * Frame)) (t : ID3) (copied : nat)
  : M (ID3 * nat) :=
  match frames with
  | [] => ret (t, copied)
  | (key, frame) :: rest =>
      r <- _clone_id3_frame_to t key frame ;;
      clone_all rest r.1 (if r.2 then copied + 1 else copied)
  end.

Definition _copy_id3_from_wav_id3 (wav_id3 : list (string * Frame)) (mp3_audio : MP3)
  : M nat :=
  let t0 := fresh_tags mp3_audio in
  r <- clone_all wav_id3 t0 0 ;;
  save mp3_audio r.1 ;;
  ret r.2.

(** The RIFF INFO → ID3 table of [_copy_from_riff_info]. *)
Definition mapping : list (string * FrameClass) :=
  [ ("INAM", TIT2);
    ("IART", TPE1);
    ("IPRD", TALB);
    ("ICRD", TYER);
    ("IGNR", TCON);
    ("ITRK", TRCK) ].

Fixpoint map_all (tbl : list (string * FrameClass)) (info : gmap string pyval)
    (t : ID3) (copied : nat) : M (ID3 * nat) :=
  match tbl with
  | [] => ret (t, copied)
  | (wav_key, cls) :: rest =>
      match info !! wav_key with
      | Some v =>
          fr <- construct cls {[ "encoding" := PyInt 3; "text" := v ]} ;;
          map_all rest info (add t fr) (copied + 1)
      | None => map_all rest info t copied
      end
  end.

(** The tag dictionary and count built by [_copy_from_riff_info], before
    [save]. *)
Definition riff_info_frames (info : gmap string pyval) (t0 : ID3) : M (ID3 * nat) :=
  r <- map_all mapping info t0 0 ;;
  r <- match info !! "ICMT" with
       | Some v =>
           fr <- construct COMM {[ "encoding" := PyInt 3; "lang" := PyStr "eng";
                                   "desc" := PyStr EmptyString; "text" := v ]} ;;
           ret (add r.1 fr, r.2 + 1)
       | None => ret r
       end ;;
  match info !! "ISFT" with
  | Some v =>
      fr <- construct TSSE {[ "encoding" := PyInt 3; "text" := v ]} ;;
      ret (add r.1 fr, r.2 + 1)
  | None => ret r
  end.

Definition _copy_from_riff_info (info : gmap string pyval) (mp3_audio : MP3) : M nat :=
  let t0 := fresh_tags mp3_audio in
  r <- riff_info_frames info t0 ;;
  save mp3_audio r.1 ;;
  ret r.2.

(** [WAVE(str(wav_file)).tags]; [None] is "no tags". *)
Definition WAVE_tags (wav_file : path) : M WavTags :=
  f <- read_fs ;;
  match f !! wav_file with
  | Some (WavFile w) =>
      match wav_tags w with
      | TagsUnreadable => raise ParseError
      | t => ret t
      end
  | _ => raise ParseError
  end.

(** [not wav_meta.tags]: [None] or an empty container. *)
Definition tags_falsy (t : WavTags) : bool :=
  match t with
  | TagsUnreadable | NoTags => true
  | ID3Tags frames => match frames with [] => true | _ => false end
  | InfoTags info => bool_decide (info = ∅)
  end.

Definition copy_tags (wav_file mp3_file : path) : M nat :=
  try_except
    (wav_meta_tags <- WAVE_tags wav_file ;;
     if tags_falsy wav_meta_tags then ret 0
     else
       mp3_audio <- MP3_open mp3_file ;;
       match wav_meta_tags with
       | ID3Tags frames => _copy_id3_from_wav_id3 frames mp3_audio
       | InfoTags info => _copy_from_riff_info info mp3_audio
       | _ => ret 0
       end)
    (λ e, logging WARNING (EvTagsNotCopied wav_file e) ;; ret 0).

End TagUtilities.

(** ** Paths (pathlib) *)

(** [s.rfind(c)]; [None] is Python's -1. *)
Fixpoint rfind (c : ascii) (s : string) : option nat :=
  match s with
  | EmptyString => None
  | String a s' =>
      match rfind c s' with
      | Some i => Some (S i)
      | None => if Ascii.eqb a c then Some 0 else None
      end
  end.

(** [PurePath.suffix] of a file name: from the last dot on, unless that dot
    is the first or the last character. *)
Definition suffix (name : string) : string :=
  match rfind "." name with
  | Some i =>
      if ((0 <? i) && (i <? String.length name - 1))%nat
      then substring i (String.length name - i) name
      else EmptyString
  | None => EmptyString
  end.

Definition with_suffix_name (name sfx : string) : string :=
  let old_suffix := suffix name in
  if String.eqb old_suffix EmptyString then name +:+ sfx
  else substring 0 (String.length name - String.length old_suffix) name +:+ sfx.

(** [p.with_suffix(sfx)]; an empty name is a [ValueError]. *)
Definition with_suffix (p : path) (sfx : string) : result path :=
  match last p with
  | None => Raise ValueError
  | Some name =>
      if String.eqb name EmptyString then Raise ValueError
      else Ok (removelast p ++ [with_suffix_name name sfx])
  end.

(** [p.relative_to(other)]. *)
Fixpoint relative_to (p other : path) : result path :=
  match other, p with
  | [], _ => Ok p
  | o :: other', c :: p' =>
      if String.eqb c o then relative_to p' other' else Raise ValueError
  | _ :: _, [] => Raise ValueError
  end.

Definition parent (p : path) : path := removelast p.

(** The empty path is the directory paths are resolved against. *)
Definition node_at (f : FS) (p : path) : option node :=
  match p with
  | [] => Some Dir
  | _ => f !! p
  end.

Definition exists_ (p : path) : M bool :=
  f <- read_fs ;;
  ret (bool_decide (is_Some (node_at f p))).

(** [p.mkdir(parents=True, exist_ok=True)]: every missing ancestor is
    created top-down; a component that is a file raises. *)
Fixpoint mkdir_from (made todo : path) : M unit :=
  match todo with
  | [] => ret tt
  | c :: rest =>
      let p := made ++ [c] in
      f <- read_fs ;;
      match f !! p with
      | Some Dir => mkdir_from p rest
      | Some _ => raise FileExistsError
      | None => write_fs (<[p := Dir]> f) ;; mkdir_from p rest
      end
  end.

Definition mkdir (p : path) : M unit := mkdir_from [] p.

Definition lower_ascii (a : ascii) : ascii :=
  let n := nat_of_ascii a in
  if ((65 <=? n) && (n <=? 90))%nat then ascii_of_nat (n + 32) else a.

Fixpoint lower (s : string) : string :=
  match s with
  | EmptyString => EmptyString
  | String a s' => String (lower_ascii a) (lower s')
  end.

Definition endswith (s sfx : string) : bool :=
  String.eqb (substring (String.length s - String.length sfx) (String.length sfx) s) sfx
  && (String.length sfx <=? String.length s)%nat.

(** [fnmatch(name, "*.wav")] with the platform's casing. *)
Definition matches_star_wav (case_sensitive : bool) (name : string) : bool :=
  endswith (if case_sensitive then name else lower name) ".wav".

Fixpoint path_compare (p q : path) : comparison :=
  match p, q with
  | [], [] => Eq
  | [], _ :: _ => Lt
  | _ :: _, [] => Gt
  | a :: p', b :: q' =>
      match String.compare a b with
      | Eq => path_compare p' q'
      | c => c
      end
  end.

Definition path_le (p q : path) : Prop :=
  Is_true (match path_compare p q with Gt => false | _ => true end).

#[global] Instance path_le_dec p q : Decision (path_le p q).
Proof. unfold path_le. apply _. Defined.

Definition is_below (root p : path) : bool :=
  match relative_to p root with
  | Ok (_ :: _) => true
  | _ => false
  end.

Definition wav_candidate (case_sensitive : bool) (root p : path) : bool :=
  is_below root p &&
  match last p with
  | Some name => matches_star_wav case_sensitive name
  | None => false
  end.

(** [sorted(src_path.rglob("*.wav"))] on a tree-shaped file system. *)
Definition rglob_wav_sorted (case_sensitive : bool) (f : FS) (src_path : path)
  : list path :=
  merge_sort path_le
    (filter (λ p, Is_true (wav_candidate case_sensitive src_path p))
            (map fst (map_to_list f))).

(** ** Conversion *)

Inductive Status := converted | skipped | failed | would_convert.

#[global] Instance Status_eq_dec : EqDecision Status.
Proof. solve_decision. Defined.

Section Conversion.
Context (lib : Library).

(** [AudioSegment.from_wav(str(wav_file))]: the decoded audio, named by its
    source. *)
Definition from_wav (wav_file : path) : M path :=
  f <- read_fs ;;
  match f !! wav_file with
  | Some (WavFile w) => if wav_decodable w then ret wav_file else raise CodecError
  | _ => raise CodecError
  end.

(** [audio.export(str(mp3_file), format="mp3", bitrate=bitrate)]: the encoded
    file is written under [mp3_file] itself, without a tag block; a directory
    cannot be opened for writing. *)
Definition export (audio mp3_file : path) (bitrate : string) : M unit :=
  if export_fails lib mp3_file bitrate then raise CodecError
  else
    f <- read_fs ;;
    match f !! mp3_file with
    | Some Dir => raise CodecError
    | _ => write_fs (<[mp3_file := Mp3File (mkMp3 audio bitrate None)]> f)
    end.

(** The destination of a source file. *)
Definition resolve (wav_file src_root dst_root : path) : result path :=
  match relative_to wav_file src_root with
  | Ok relative_path =>
      match with_suffix relative_path ".mp3" with
      | Ok r => Ok (dst_root ++ r)
      | Raise e => Raise e
      end
  | Raise e => Raise e
  end.

Definition convert_one (wav_file src_root dst_root : path) (bitrate : string)
    (dry_run : bool) : M Status :=
  mp3_file <- lift (resolve wav_file src_root dst_root) ;;
  mkdir (parent mp3_file) ;;
  ex <- exists_ mp3_file ;;
  if ex then
    logging INFO (EvSkipped mp3_file) ;;
    ret skipped
  else if dry_run then ret would_convert
  else
    try_except
      (audio <- from_wav wav_file ;;
       export audio mp3_file bitrate ;;
       copied <- copy_tags lib wav_file mp3_file ;;
       logging INFO (EvConverted wav_file mp3_file copied) ;;
       ret converted)
      (λ e, logging ERROR (EvError wav_file e) ;; ret failed).

(** [logging.basicConfig(filename=log_file, ...)] opens the log file for
    appending, creating it when missing. *)
Definition setup_logging (log_file : path) : M unit :=
  f <- read_fs ;;
  match f !! log_file with
  | None => write_fs (<[log_file := OtherFile]> f)
  | Some Dir => raise FileExistsError
  | Some _ => ret tt
  end.

Fixpoint preview_loop (files : list path) (shown : nat) : M nat :=
  match files with
  | [] => ret shown
  | wav :: rest =>
      s <- try_except
             (meta <- WAVE_tags wav ;;
              console_print (PrPreview wav (Some meta)) ;;
              ret (shown + 1))
             (λ e, console_print (PrPreview wav None) ;; ret shown) ;;
      preview_loop rest s
  end.

Definition preview_tags (files : list path) (limit : nat) : M unit :=
  shown <- preview_loop (take limit files) 0 ;;
  if Nat.eqb shown 0 then console_print PrNoPreview else ret tt.

(** The dry-run loop of [run_conversion]: existence checks only. *)
Fixpoint dry_run_loop (wav_files : list path) (src_path dst_path : path)
    (would_convert would_skip : nat) : M (nat * nat) :=
  match wav_files with
  | [] => ret (would_convert, would_skip)
  | wav :: rest =>
      mp3_file <- lift (resolve wav src_path dst_path) ;;
      ex <- exists_ mp3_file ;;
      if ex then dry_run_loop rest src_path dst_path would_convert (would_skip + 1)
      else dry_run_loop rest src_path dst_path (would_convert + 1) would_skip
  end.

(** A submitted task: it runs to its end, and what it returned or raised is
    kept in its future. *)
Definition submit {A} (task : M A) : M (result A) :=
  λ w, let r := task w in (Ok r.1, r.2).

(** The pool at task granularity: tasks run one after the other in
    submission order. *)
Fixpoint submit_all (wav_files : list path) (src_path dst_path : path)
    (bitrate : string) : M (list (result Status)) :=
  match wav_files with
  | [] => ret []
  | wav :: rest =>
      fut <- submit (convert_one wav src_path dst_path bitrate false) ;;
      futs <- submit_all rest src_path dst_path bitrate ;;
      ret (fut :: futs)
  end.

(** The loop over [as_completed(futures)]; [fut.result()] re-raises. *)
Fixpoint collect (futures : list (result Status)) (c s f : nat) : M (nat * nat * nat) :=
  match futures with
  | [] => ret (c, s, f)
  | fut :: rest =>
      status <- lift fut ;;
      match status with
      | converted => collect rest (c + 1) s f
      | skipped => collect rest c (s + 1) f
      | failed => collect rest c s (f + 1)
      | would_convert => collect rest c s f
      end
  end.

Definition run_conversion (src_path dst_path : path) (bitrate : string)
    (workers : nat) (dry_run : bool) (preview_count : Z) : M unit :=
  src_exists <- exists_ src_path ;;
  if negb src_exists then console_print (PrSourceMissing src_path)
  else
    mkdir dst_path ;;
    let log_file := dst_path ++ ["conversion.log"] in
    setup_logging log_file ;;
    logging INFO (EvStart src_path dst_path bitrate workers dry_run) ;;
    f <- read_fs ;;
    let wav_files := rglob_wav_sorted (glob_case_sensitive lib) f src_path in
    match wav_files with
    | [] => console_print PrNoWavFiles
    | _ =>
        console_print (PrFound (length wav_files)) ;;
        (if dry_run then console_print PrDryRunActive else ret tt) ;;
        (if (0 <? preview_count)%Z
         then preview_tags wav_files (Z.to_nat preview_count)
         else ret tt) ;;
        if dry_run then
          r <- dry_run_loop wav_files src_path dst_path 0 0 ;;
          console_print (PrDryRunTable r.1 r.2)
        else
          futures <- submit_all wav_files src_path dst_path bitrate ;;
          r <- collect futures 0 0 0 ;;
          console_print (PrResultTable r.1.1 r.1.2 r.2) ;;
          logging INFO (EvDone r.1.1 r.1.2 r.2)
    end.

Record Args := mkArgs {
  arg_src : path;
  arg_dst : path;
  arg_bitrate : string;
  arg_workers : nat;
  arg_dry_run : bool;
  arg_preview : Z
}.

Definition main (args : Args) : M unit :=
  run_conversion (arg_src args) (arg_dst args) (arg_bitrate args)
                 (arg_workers args) (arg_dry_run args) (arg_preview args).

(** The status the interpreter exits with: 0 when [main] returns, 1 when an
    exception reaches the top level. *)
Definition exit_status (args : Args) (w : World) : Z :=
  match (main args w).1 with
  | Ok _ => 0
  | Raise _ => 1
  end.

End Conversion.

(** ** The worker of the first thread-pool version ([wav2mp3.py]) *)

Section FirstVersion.
Context (lib : Library).

Definition tag_map : list (string * string) :=
  [ ("TIT2", "title"); ("TPE1", "artist"); ("TALB", "album"); ("TDRC", "date");
    ("TCON", "genre"); ("TRCK", "tracknumber"); ("TPE2", "albumartist");
    ("COMM", "comment") ].

(** [str(v[0])]: the first element of a list, the first character of a
    string. *)
Definition index0 (v : pyval) : result string :=
  match v with
  | PyList (x :: _) => Ok x
  | PyList [] => Raise IndexError
  | PyStr (String a _) => Ok (String a EmptyString)
  | PyStr EmptyString => Raise IndexError
  | _ => Raise TypeError
  end.

Fixpoint assoc (key : string) (l : list (string * Frame)) : option Frame :=
  match l with
  | [] => None
  | (k, f) :: rest => if String.eqb k key then Some f else assoc key rest
  end.

(** [wav_key in tags] and, when it is, [str(tags[wav_key][0])]; a frame is
    subscripted through its text. *)
Definition first_value (t : WavTags) (wav_key : string) : option (result string) :=
  match t with
  | ID3Tags frames =>
      match assoc wav_key frames with
      | Some frame =>
          Some (match frame_attrs frame !! "text" with
                | Some v => index0 v
                | None => Raise TypeError
                end)
      | None => None
      end
  | InfoTags info =>
      match info !! wav_key with
      | Some v => Some (index0 v)
      | None => None
      end
  | _ => None
  end.

(** The dictionary comprehension over [tag_map.items()]. *)
Fixpoint read_map (tbl : list (string * string)) (t : WavTags)
    (pydub_tags : gmap string string) : result (gmap string string) :=
  match tbl with
  | [] => Ok pydub_tags
  | (wav_key, pydub_key) :: rest =>
      match first_value t wav_key with
      | Some (Ok value) => read_map rest t (<[pydub_key := value]> pydub_tags)
      | Some (Raise e) => Raise e
      | None => read_map rest t pydub_tags
      end
  end.

Definition name (p : path) : string := default EmptyString (last p).

Definition read_wav_tags (wav_file : path) : M (gmap string string) :=
  try_except
    (wav_meta_tags <- WAVE_tags wav_file ;;
     if tags_falsy wav_meta_tags then ret ∅
     else
       pydub_tags <- lift (read_map tag_map wav_meta_tags ∅) ;;
       (if bool_decide (pydub_tags = ∅) then ret tt
        else logging INFO (EvTagsRead (name wav_file) pydub_tags)) ;;
       ret pydub_tags)
    (λ e, logging WARNING (EvTagsNotRead (name wav_file) e) ;; ret ∅).

(** [audio.export(mp3_file, format="mp3", bitrate=bitrate, tags=tags)]. *)
Definition export_with_tags (audio mp3_file : path) (bitrate : string)
    (tags_to_apply : gmap string string) : M unit :=
  if export_fails lib mp3_file bitrate then raise CodecError
  else
    f <- read_fs ;;
    match f !! mp3_file with
    | Some Dir => raise CodecError
    | _ => write_fs (<[mp3_file :=
                        Mp3File (mkMp3 audio bitrate (metadata_block lib tags_to_apply))]> f)
    end.

Definition process_file (wav_file src_path dst_path : path) (bitrate : string)
  : M string :=
  try_except
    (mp3_file <- lift (resolve wav_file src_path dst_path) ;;
     mkdir (parent mp3_file) ;;
     ex <- exists_ mp3_file ;;
     if ex then
       logging INFO (EvSkippedName (name mp3_file)) ;;
       ret "skipped"
     else
       tags_to_apply <- read_wav_tags wav_file ;;
       audio <- from_wav wav_file ;;
       export_with_tags audio mp3_file bitrate tags_to_apply ;;
       logging INFO (EvConvertedNames (name wav_file) (name mp3_file)) ;;
       ret "converted")
    (λ e, logging ERROR (EvErrorName (name wav_file) e) ;; ret "error").

End FirstVersion.

(** ** A concrete library: mutagen's frame specifications on a POSIX host *)

Definition FrameID (c : FrameClass) : string :=
  match c with
  | TIT2 => "TIT2" | TALB => "TALB" | TPE1 => "TPE1" | TPE2 => "TPE2"
  | TCON => "TCON" | TRCK => "TRCK" | TPOS => "TPOS" | TYER => "TYER"
  | TDRC => "TDRC" | TCOM => "TCOM" | TSSE => "TSSE"
  | TXXX => "TXXX" | COMM => "COMM" | APIC => "APIC"
  | OtherFrame name => name
  end.

Definition str_attr (f : Frame) (a : string) : string :=
  match frame_attrs f !! a with
  | Some (PyStr s) => s
  | _ => EmptyString
  end.

Definition mutagen_defaults (c : FrameClass) : gmap string pyval :=
  match c with
  | COMM => {[ "lang" := PyStr "XXX"; "desc" := PyStr EmptyString; "text" := PyList [] ]}
  | TXXX => {[ "desc" := PyStr EmptyString; "text" := PyList [] ]}
  | APIC => {[ "mime" := PyStr EmptyString; "type" := PyInt 3; "desc" := PyStr EmptyString;
               "data" := PyBytes [] ]}
  | OtherFrame _ => ∅
  | _ => {[ "text" := PyList [] ]}
  end.

Definition mutagen_HashKey (f : Frame) : string :=
  match frame_class f with
  | COMM => "COMM:" +:+ str_attr f "desc" +:+ ":" +:+ str_attr f "lang"
  | TXXX => "TXXX:" +:+ str_attr f "desc"
  | APIC => "APIC:" +:+ str_attr f "desc"
  | c => FrameID c
  end.

Definition mutagen : Library :=
  mkLibrary mutagen_defaults (λ _ _, false) mutagen_HashKey
            (λ _ _, false) (λ _ _, false) true (λ _, None).

Definition empty_world : World := mkWorld ∅ [] [] [].

Definition world_of (f : FS) : World := mkWorld f [] [] [].

(** ** The flat-path table in the specification's words

    A fixed table from the well-known keys (title, artist, album, year,
    genre, track, comment, encoder software) to the target frame type and the
    keyword arguments built from the value, taken as it is.  Keys outside the
    table are dropped. *)




(** ** Sample inputs *)

Definition comm_deu : Frame :=
  mkFrame COMM {[ "encoding" := PyInt 1; "lang" := PyStr "deu";
                  "desc" := PyStr "Notiz"; "text" := PyList ["Hallo"] ]}.

Definition txxx_mood : Frame :=
  mkFrame TXXX {[ "encoding" := PyInt 1; "desc" := PyStr "MOOD";
                  "text" := PyList ["ruhig"] ]}.

Definition tit2_two : Frame :=
  mkFrame TIT2 {[ "encoding" := PyInt 1; "text" := PyList ["Eins"; "Zwei"] ]}.

(** ** Vocabulary of the properties *)

(** What the text-frame branch of [_clone_id3_frame_to] builds from a frame
    that carries [text]. *)
Definition text_clone (lib : Library) (frame : Frame) (text : pyval) : Frame :=
  mkFrame (frame_class frame)
          ({[ "encoding" := PyInt 3; "text" := text ]}
           ∪ framespec_defaults lib (frame_class frame)).

(** A frame with a textual payload that the library accepts when cloned. *)
Definition clonable_text_frame (lib : Library) (frame : Frame) : Prop :=
  ∃ text, frame_attrs frame !! "text" = Some text
          ∧ frame_rejected lib (frame_class frame)
              {[ "encoding" := PyInt 3; "text" := text ]} = false.

(** The clones of a list of source items, in order. *)
Definition text_clones (lib : Library) (frames : list (string * Frame)) : list Frame :=
  omap (λ kf, match frame_attrs kf.2 !! "text" with
              | Some text => Some (text_clone lib kf.2 text)
              | None => None
              end) frames.

(** The values a frame carries in its [text] attribute. *)
Definition frame_values (f : Frame) : list string :=
  match frame_attrs f !! "text" with
  | Some v => values v
  | None => []
  end.


(** [preserves R m]: running [m] relates the world before to the world
    after, whether it returns or raises. *)
Definition preserves (R : relation World) {A} (m : M A) : Prop :=
  ∀ w, R w (m w).2.

(** Relations that do not look at the log or the console. *)
Class LogBlind (R : relation World) : Prop :=
  log_blind : ∀ w l c, R w (mkWorld (fs w) (fs_trace w) l c).

(** The file system and its trace are untouched. *)
Definition same_fs (w w' : World) : Prop :=
  fs w' = fs w ∧ fs_trace w' = fs_trace w.

(** Existing nodes stay, directories stay directories, and the trace only
    grows at its head. *)
Definition fs_grows (f f' : FS) : Prop :=
  ∀ q n, f !! q = Some n → ∃ n', f' !! q = Some n' ∧ (n = Dir → n' = Dir).

Definition grows (w w' : World) : Prop :=
  fs_grows (fs w) (fs w') ∧ fs_trace w `suffix_of` fs_trace w'.

(** Every ancestor-or-self of [p] is a directory. *)
Definition dirs_ok (f : FS) (p : path) : Prop :=
  ∀ k, 0 < k ≤ length p → f !! take k p = Some Dir.

(** No ancestor-or-self of [p] is a file. *)
Definition creatable (f : FS) (p : path) : Prop :=
  ∀ k n, 0 < k ≤ length p → f !! take k p = Some n → n = Dir.

(** The world after a directory has been created at [p]. *)
Definition after_mkdir_write (w : World) (p : path) : World :=
  mkWorld (<[p := Dir]> (fs w)) (<[p := Dir]> (fs w) :: fs_trace w) (log w) (console w).

(** The world after one more log record. *)
Definition logged (w : World) (lvl : Level) (ev : Event) : World :=
  mkWorld (fs w) (fs_trace w) (log w ++ [(lvl, ev)]) (console w).

(** The world after one more console line. *)
Definition printed (w : World) (p : Printed) : World :=
  mkWorld (fs w) (fs_trace w) (log w) (console w ++ [p]).

(** The world after the encoder has written [mp3] from [audio]. *)
Definition exported (w : World) (mp3 audio : path) (bitrate : string) : World :=
  mkWorld (<[mp3 := Mp3File (mkMp3 audio bitrate None)]> (fs w))
          (<[mp3 := Mp3File (mkMp3 audio bitrate None)]> (fs w) :: fs_trace w)
          (log w) (console w).

(** The number a tag copy reported. *)
Definition copied_of (r : result nat) : nat :=
  match r with
  | Ok n => n
  | Raise _ => 0
  end.

(** ** Sample file systems *)

(** One tagged album track, no destination yet. *)
Definition album_fs : FS :=
  {[ ["src"] := Dir;
     ["src"; "a"] := Dir;
     ["src"; "a"; "1.wav"] :=
       WavFile (mkWav true (ID3Tags [("TIT2", tit2_two); ("COMM:Notiz:deu", comm_deu)])) ]}.

(** The same track, its destination already there. *)
Definition done_fs : FS :=
  <[ ["out"] := Dir ]>
  (<[ ["out"; "a"] := Dir ]>
  (<[ ["out"; "a"; "1.mp3"] := Mp3File (mkMp3 ["src"; "a"; "1.wav"] "128k" None) ]>
   album_fs)).

(** A file that is no audio under a [.wav] name. *)
Definition broken_fs : FS :=
  {[ ["src"] := Dir;
     ["src"; "broken.wav"] := WavFile (mkWav false NoTags) ]}.

(** A track with an upper-case extension. *)
Definition upper_fs : FS :=
  {[ ["src"] := Dir;
     ["src"; "TRACK.WAV"] := WavFile (mkWav true NoTags) ]}.


Definition sample_args (dry_run : bool) : Args :=
  mkArgs ["src"] ["out"] "192k" 2 dry_run 0.

(** The world after the pipeline ran once over [broken_fs]. *)
Definition broken_after_first_run : World :=
  (main mutagen (sample_args false) (world_of broken_fs)).2.

(** The world after the worker converted the album track. *)
Definition album_after_convert : World :=
  (convert_one mutagen ["src"; "a"; "1.wav"] ["src"] ["out"] "192k" false
     (world_of album_fs)).2.

(** ** Further sample inputs *)

Definition apic_cover : Frame :=
  mkFrame APIC {[ "encoding" := PyInt 0; "mime" := PyStr "image/png";
                  "type" := PyInt 3; "desc" := PyNone;
                  "data" := PyBytes [Byte.x89; Byte.x50] ]}.

Definition priv_frame : Frame :=
  mkFrame (OtherFrame "PRIV") {[ "owner" := PyStr "me"; "data" := PyBytes [] ]}.

(** ** Further vocabulary *)

(** Between [w] and [w'] nothing changed in the file system except, at
    most, the tag block of the MP3 at [mp3]. *)
Definition only_tags_of (mp3 : path) (w w' : World) : Prop :=
  (∀ q, q ≠ mp3 → fs w' !! q = fs w !! q)
  ∧ (fs w' !! mp3 = fs w !! mp3
     ∨ ∃ m t, fs w !! mp3 = Some (Mp3File m)
              ∧ fs w' !! mp3
                = Some (Mp3File (mkMp3 (mp3_source m) (mp3_bitrate m) (Some t)))).


(** The world after [save] wrote the tag block [t] to the MP3 [m] at [mp3]. *)
Definition saved (w : World) (mp3 : path) (m : Mp3Data) (t : ID3) : World :=
  mkWorld
    (<[mp3 := Mp3File (mkMp3 (mp3_source m) (mp3_bitrate m) (Some t))]> (fs w))
    (<[mp3 := Mp3File (mkMp3 (mp3_source m) (mp3_bitrate m) (Some t))]> (fs w)
     :: fs_trace w)
    (log w) (console w).

(** A track tagged the flat way, its MP3 already encoded. *)
Definition flat_fs : FS :=
  {[ ["src"; "r.wav"] :=
       WavFile (mkWav true (InfoTags {[ "INAM" := PyStr "Song"; "IART" := PyStr "Band" ]}));
     ["out"; "r.mp3"] := Mp3File (mkMp3 ["src"; "r.wav"] "192k" None) ]}.

(** Two tracks, the directory of the first one's destination blocked by a
    file. *)
Definition blocked_fs : FS :=
  {[ ["src"] := Dir;
     ["src"; "a"] := Dir;
     ["src"; "a"; "1.wav"] := WavFile (mkWav true NoTags);
     ["src"; "b"] := Dir;
     ["src"; "b"; "2.wav"] := WavFile (mkWav true NoTags);
     ["out"] := Dir;
     ["out"; "a"] := OtherFile ]}.




(** * Properties *)

(** ** Tag translation *)

Section TagTheory.
Context (lib : Library).

Lemma hasattr_lookup frame a v :
  frame_attrs frame !! a = Some v → hasattr frame a = true ∧ getattr frame a = Ok v.
Proof.
  intros H. unfold hasattr, getattr. rewrite H. split; [|done].
  apply bool_decide_eq_true. eauto.
Qed.

Lemma hasattr_false frame a :
  hasattr frame a = false → getattr frame a = Raise (AttributeError a).
Proof.
  unfold hasattr, getattr. intros H%bool_decide_eq_false.
  destruct (frame_attrs frame !! a) eqn:E; [|done].
  exfalso. apply H. eauto.
Qed.

(** A frame with a [text] attribute is always handled by the first branch,
    whatever its class. *)
Lemma clone_try_text mp3_tags frame text w :
  frame_attrs frame !! "text" = Some text →
  clone_try lib mp3_tags frame w =
    (fr <- construct lib (frame_class frame) {[ "encoding" := PyInt 3; "text" := text ]} ;;
     ret (Some (add lib mp3_tags fr))) w.
Proof.
  intros [Hh Hg]%hasattr_lookup. unfold clone_try. rewrite Hh, Hg. reflexivity.
Qed.

Lemma clone_text_accepted mp3_tags key frame text w :
  frame_attrs frame !! "text" = Some text →
  frame_rejected lib (frame_class frame) {[ "encoding" := PyInt 3; "text" := text ]} = false →
  _clone_id3_frame_to lib mp3_tags key frame w =
    (Ok (add lib mp3_tags
           (mkFrame (frame_class frame)
              ({[ "encoding" := PyInt 3; "text" := text ]} ∪
               framespec_defaults lib (frame_class frame))),
         true), w).
Proof.
  intros Ht Hr. unfold _clone_id3_frame_to.
  unfold bind at 1. unfold try_except. unfold bind at 1.
  rewrite (clone_try_text _ _ _ _ Ht).
  unfold bind, construct. rewrite Hr. reflexivity.
Qed.

Lemma clone_text_rejected mp3_tags key frame text w :
  frame_attrs frame !! "text" = Some text →
  frame_rejected lib (frame_class frame) {[ "encoding" := PyInt 3; "text" := text ]} = true →
  _clone_id3_frame_to lib mp3_tags key frame w =
    (Ok (mp3_tags, false),
     mkWorld (fs w) (fs_trace w) (log w ++ [(WARNING, EvCloneFailed key FrameError)])
             (console w)).
Proof.
  intros Ht Hr. unfold _clone_id3_frame_to.
  unfold bind at 1. unfold try_except. unfold bind at 1.
  rewrite (clone_try_text _ _ _ _ Ht).
  unfold bind, construct. rewrite Hr. reflexivity.
Qed.

(** The clone of a frame with a [text] attribute depends on nothing but its
    class and that attribute: two such frames that differ in language or
    description are cloned alike. *)
Lemma clone_depends_on_class_and_text mp3_tags key f1 f2 text w :
  frame_class f1 = frame_class f2 →
  frame_attrs f1 !! "text" = Some text →
  frame_attrs f2 !! "text" = Some text →
  _clone_id3_frame_to lib mp3_tags key f1 w = _clone_id3_frame_to lib mp3_tags key f2 w.
Proof.
  intros Hc H1 H2.
  destruct (frame_rejected lib (frame_class f1)
              {[ "encoding" := PyInt 3; "text" := text ]}) eqn:Hr.
  - rewrite (clone_text_rejected _ _ _ _ _ H1 Hr).
    rewrite Hc in Hr. by rewrite (clone_text_rejected _ _ _ _ _ H2 Hr).
  - rewrite (clone_text_accepted _ _ _ _ _ H1 Hr).
    rewrite Hc in Hr. rewrite (clone_text_accepted _ _ _ _ _ H2 Hr).
    by rewrite Hc.
Qed.

(** The branch written for comment frames is reached only by a frame without
    a [text] attribute, and then reading [frame.text] raises: it never adds a
    frame. *)
Lemma comm_branch_never_copies mp3_tags frame w :
  hasattr frame "text" = false →
  isinstance frame COMM = true →
  ∃ e, clone_try lib mp3_tags frame w = (Raise e, w).
Proof.
  intros Hh Hi. unfold clone_try. rewrite Hh, Hi.
  rewrite (hasattr_false _ _ Hh).
  unfold bind, lift.
  destruct (getattr frame "lang"); [|eauto].
  destruct (getattr frame "desc"); eauto.
Qed.

Lemma txxx_branch_never_copies mp3_tags frame w :
  hasattr frame "text" = false →
  isinstance frame TXXX = true →
  ∃ e, clone_try lib mp3_tags frame w = (Raise e, w).
Proof.
  intros Hh Hi. unfold clone_try. rewrite Hh, Hi.
  rewrite (hasattr_false _ _ Hh).
  destruct (isinstance frame COMM) eqn:Hc.
  { apply bool_decide_eq_true in Hc, Hi. congruence. }
  destruct (isinstance frame APIC) eqn:Ha.
  { apply bool_decide_eq_true in Ha, Hi. congruence. }
  unfold bind, lift.
  destruct (getattr frame "desc"); eauto.
Qed.





(** The whole loop over a container of clonable text frames: every frame is
    cloned, in order, and counted. *)
Lemma clone_all_text_frames frames t c w :
  Forall (λ kf, clonable_text_frame lib kf.2) frames →
  clone_all lib frames t c w
  = (Ok (foldl (add lib) t (text_clones lib frames), c + length frames), w)
    ∧ length (text_clones lib frames) = length frames.
Proof.
  revert t c. induction frames as [|[key frame] rest IH]; intros t c H.
  - simpl. unfold ret. by rewrite Nat.add_0_r.
  - inversion H as [|? ? (text & Ht & Hr) Hrest]; subst. simpl in Ht, Hr.
    cbn [clone_all]. unfold bind at 1.
    rewrite (clone_text_accepted _ _ _ _ _ Ht Hr). cbn [fst snd].
    fold (text_clone lib frame text).
    destruct (IH (add lib t (text_clone lib frame text)) (c + 1) Hrest) as [Heq Hl].
    rewrite Heq.
    unfold text_clones in *. cbn [omap list_omap snd]. rewrite Ht.
    cbn [foldl length]. rewrite Hl. split; [|done].
    by rewrite <- Nat.add_assoc.
Qed.

Lemma copy_tags_never_raises wav_file mp3_file w :
  ∃ n w', copy_tags lib wav_file mp3_file w = (Ok n, w').
Proof.
  unfold copy_tags, try_except.
  match goal with |- context [match ?b w with _ => _ end] => destruct (b w) as [[n|e] w'] end.
  - eauto.
  - unfold bind, logging, ret. eauto.
Qed.


End TagTheory.

(** ** The claims on tag translation *)

(** C1 (the code departs from the claim): a comment frame with language
    [deu] and description [Notiz], and a user-defined text frame with
    description [MOOD], are both cloned by the text-frame branch, which passes
    only the encoding and the text: the target frames carry the library's
    default language and an empty description. *)
Theorem C1_comment_and_user_text_lose_lang_desc :
  (∃ fr, _clone_id3_frame_to mutagen ∅ "COMM:Notiz:deu" comm_deu empty_world
         = (Ok ({[ "COMM::XXX" := fr ]}, true), empty_world)
       ∧ frame_class fr = COMM
       ∧ frame_attrs fr !! "lang" = Some (PyStr "XXX")
       ∧ frame_attrs fr !! "desc" = Some (PyStr EmptyString)
       ∧ frame_attrs fr !! "text" = Some (PyList ["Hallo"]))
  ∧ (∃ fr, _clone_id3_frame_to mutagen ∅ "TXXX:MOOD" txxx_mood empty_world
         = (Ok ({[ "TXXX:" := fr ]}, true), empty_world)
       ∧ frame_class fr = TXXX
       ∧ frame_attrs fr !! "desc" = Some (PyStr EmptyString)
       ∧ frame_attrs fr !! "text" = Some (PyList ["ruhig"])).
Proof.
  split.
  - eexists. split; [vm_compute; reflexivity|]. repeat split; vm_compute; reflexivity.
  - eexists. split; [vm_compute; reflexivity|]. repeat split; vm_compute; reflexivity.
Qed.

(** C2: a frame with a textual payload is cloned as a frame of the same
    class with encoding 3 (UTF-8) and the very same text attribute, so a frame
    carrying N values yields a target frame carrying the same N values; the
    clone is stored in the tag dictionary under its hash key. *)
Theorem C2_text_frame_clone_keeps_values
    (lib : Library) (mp3_tags : ID3) (key : string) (frame : Frame)
    (text : pyval) (w : World) :
  frame_attrs frame !! "text" = Some text →
  frame_rejected lib (frame_class frame) {[ "encoding" := PyInt 3; "text" := text ]} = false →
  ∃ fr t,
    _clone_id3_frame_to lib mp3_tags key frame w = (Ok (t, true), w)
    ∧ t !! HashKey lib fr = Some fr
    ∧ (∀ k, k ≠ HashKey lib fr → t !! k = mp3_tags !! k)
    ∧ frame_class fr = frame_class frame
    ∧ frame_attrs fr !! "encoding" = Some (PyInt 3)
    ∧ frame_attrs fr !! "text" = Some text
    ∧ frame_values fr = frame_values frame
    ∧ length (frame_values fr) = length (frame_values frame).
Proof.
  intros Ht Hr.
  eexists _, _. split; [apply (clone_text_accepted lib _ _ _ _ _ Ht Hr)|].
  assert (Htxt : ∀ d : gmap string pyval,
             ({[ "encoding" := PyInt 3; "text" := text ]} ∪ d) !! "text" = Some text).
  { intros d. apply lookup_union_Some_l. by simplify_map_eq. }
  split; [apply lookup_insert_eq|].
  split; [intros k Hk; unfold add; by rewrite lookup_insert_ne|].
  split; [done|].
  split; [simpl; apply lookup_union_Some_l; by simplify_map_eq|].
  split; [apply Htxt|].
  assert (frame_values
            (mkFrame (frame_class frame)
               ({[ "encoding" := PyInt 3; "text" := text ]} ∪
                framespec_defaults lib (frame_class frame))) = frame_values frame) as ->.
  { unfold frame_values. simpl. by rewrite Htxt, Ht. }
  done.
Qed.

Lemma C2_text_frame_clone_keeps_values_witness :
  ∃ fr t,
    _clone_id3_frame_to mutagen ∅ "TIT2" tit2_two empty_world = (Ok (t, true), empty_world)
    ∧ t !! HashKey mutagen fr = Some fr
    ∧ frame_class fr = TIT2
    ∧ frame_values fr = ["Eins"; "Zwei"].
Proof.
  destruct (C2_text_frame_clone_keeps_values mutagen ∅ "TIT2" tit2_two
              (PyList ["Eins"; "Zwei"]) empty_world)
    as (fr & t & H1 & H2 & _ & H4 & _ & _ & H7 & _).
  - vm_compute; reflexivity.
  - reflexivity.
  - exists fr, t. repeat split; [exact H1 | exact H2 | exact H4 |].
    rewrite H7. vm_compute; reflexivity.
Defined.

Section FlatPath.
Context (lib : Library).
Hypothesis accepts : ∀ cls kwargs, frame_rejected lib cls kwargs = false.





End FlatPath.

(** ** What a computation preserves *)



Section Preservation.
Context (R : relation World) `{!PreOrder R}.

Lemma preserves_ret {A} (a : A) : preserves R (ret a).
Proof. intros w. simpl. reflexivity. Qed.

Lemma preserves_raise {A} e : preserves R (@raise A e).
Proof. intros w. simpl. reflexivity. Qed.

Lemma preserves_lift {A} (r : result A) : preserves R (lift r).
Proof. intros w. simpl. reflexivity. Qed.

Lemma preserves_read : preserves R read_fs.
Proof. intros w. simpl. reflexivity. Qed.

Lemma preserves_bind {A B} (m : M A) (k : A → M B) :
  preserves R m → (∀ a, preserves R (k a)) → preserves R (bind m k).
Proof.
  intros Hm Hk w. unfold bind. specialize (Hm w).
  destruct (m w) as [[a|e] w1]; simpl in *; [|done].
  etransitivity; [exact Hm | apply Hk].
Qed.

Lemma preserves_try {A} (body : M A) (handler : exn → M A) :
  preserves R body → (∀ e, preserves R (handler e)) →
  preserves R (try_except body handler).
Proof.
  intros Hm Hk w. unfold try_except. specialize (Hm w).
  destruct (body w) as [[a|e] w1]; simpl in *; [done|].
  etransitivity; [exact Hm | apply Hk].
Qed.

Lemma preserves_submit {A} (task : M A) :
  preserves R task → preserves R (submit task).
Proof. intros Hm w. unfold submit. simpl. apply Hm. Qed.

Context `{!LogBlind R}.

Lemma preserves_logging lvl ev : preserves R (logging lvl ev).
Proof. intros w. simpl. apply log_blind. Qed.

Lemma preserves_print p : preserves R (console_print p).
Proof. intros w. simpl. apply log_blind. Qed.

End Preservation.

Ltac pres :=
  repeat first
    [ assumption
    | match goal with
      | |- preserves ?R (ret _) => apply (preserves_ret R)
      | |- preserves ?R (raise _) => apply (preserves_raise R)
      | |- preserves ?R (lift _) => apply (preserves_lift R)
      | |- preserves ?R read_fs => apply (preserves_read R)
      | |- preserves ?R (logging _ _) => apply (preserves_logging R)
      | |- preserves ?R (console_print _) => apply (preserves_print R)
      | |- preserves ?R (bind _ _) => apply (preserves_bind R); [|intros ?]
      | |- preserves ?R (try_except _ _) => apply (preserves_try R); [|intros ?]
      | |- preserves ?R (submit _) => apply (preserves_submit R)
      | |- preserves _ (match ?x with _ => _ end) => destruct x
      | |- preserves _ (if ?x then _ else _) => destruct x
      end ].


#[global] Instance same_fs_preorder : PreOrder same_fs.
Proof.
  split.
  - by intros w.
  - intros w1 w2 w3 [H1 H2] [H3 H4]. split; congruence.
Qed.

#[global] Instance same_fs_log_blind : LogBlind same_fs.
Proof. by intros w l c. Qed.


Lemma fs_grows_refl f : fs_grows f f.
Proof. intros q n H. eauto. Qed.

Lemma fs_grows_trans f1 f2 f3 : fs_grows f1 f2 → fs_grows f2 f3 → fs_grows f1 f3.
Proof.
  intros H1 H2 q n Hq.
  destruct (H1 q n Hq) as (n1 & Hq1 & Hd1).
  destruct (H2 q n1 Hq1) as (n2 & Hq2 & Hd2).
  exists n2. split; [done|]. auto.
Qed.

#[global] Instance grows_preorder : PreOrder grows.
Proof.
  split.
  - intros w. split; [apply fs_grows_refl | done].
  - intros w1 w2 w3 [H1 H2] [H3 H4]. split.
    + by eapply fs_grows_trans.
    + by etransitivity.
Qed.

#[global] Instance grows_log_blind : LogBlind grows.
Proof. intros w l c. split; [apply fs_grows_refl | done]. Qed.

Lemma same_fs_grows w w' : same_fs w w' → grows w w'.
Proof.
  intros [H1 H2]. split.
  - rewrite H1. apply fs_grows_refl.
  - by rewrite H2.
Qed.

(** Writing a node where there was none, or a file over a file. *)
Lemma grows_write w p n :
  (∀ n0, fs w !! p = Some n0 → n0 ≠ Dir) →
  grows w (mkWorld (<[p := n]> (fs w)) (<[p := n]> (fs w) :: fs_trace w)
                   (log w) (console w)).
Proof.
  intros Hp. split; simpl.
  - intros q n0 Hq. destruct (decide (p = q)) as [->|Hne].
    + exists n. rewrite lookup_insert_eq. split; [done|].
      intros ->. by destruct (Hp _ Hq).
    + exists n0. by rewrite lookup_insert_ne.
  - by apply suffix_cons_r.
Qed.

Lemma grows_mkdir_write w p :
  fs w !! p = None →
  grows w (mkWorld (<[p := Dir]> (fs w)) (<[p := Dir]> (fs w) :: fs_trace w)
                   (log w) (console w)).
Proof. intros H. apply grows_write. intros n0. by rewrite H. Qed.

Section FsTheory.
Context (lib : Library).

Lemma clone_preserves_same_fs t key frame :
  preserves same_fs (_clone_id3_frame_to lib t key frame).
Proof.
  unfold _clone_id3_frame_to, clone_try, construct. pres.
Qed.

Lemma clone_all_same_fs frames t c :
  preserves same_fs (clone_all lib frames t c).
Proof.
  revert t c. induction frames as [|[key frame] rest IH]; intros t c; simpl.
  - pres.
  - apply (preserves_bind same_fs); [apply clone_preserves_same_fs|].
    intros r. apply IH.
Qed.

Lemma map_all_same_fs tbl info t c :
  preserves same_fs (map_all lib tbl info t c).
Proof.
  revert t c. induction tbl as [|[k cls] rest IH]; intros t c; simpl.
  - pres.
  - destruct (info !! k); [|apply IH].
    unfold construct. pres; apply IH.
Qed.

Lemma riff_info_frames_same_fs info t0 :
  preserves same_fs (riff_info_frames lib info t0).
Proof.
  unfold riff_info_frames, construct.
  apply (preserves_bind same_fs); [apply map_all_same_fs|]. intros r. pres.
Qed.

Lemma save_grows a t : preserves grows (save lib a t).
Proof.
  unfold save. destruct (save_fails lib (filename a) t); [pres|].
  intros w. unfold bind, read_fs. simpl.
  destruct (fs w !! filename a) as [[|d|m|]|] eqn:E; simpl; try reflexivity.
  apply grows_write. intros n0 Hn0. rewrite E in Hn0. by inversion Hn0.
Qed.

Lemma export_grows audio mp3_file bitrate :
  preserves grows (export lib audio mp3_file bitrate).
Proof.
  unfold export. destruct (export_fails lib mp3_file bitrate); [pres|].
  intros w. unfold bind, read_fs. simpl.
  destruct (fs w !! mp3_file) as [[|d|m|]|] eqn:E; simpl; try reflexivity;
    apply grows_write; intros n0 Hn0; rewrite E in Hn0; by inversion Hn0.
Qed.

Lemma mkdir_from_grows made todo : preserves grows (mkdir_from made todo).
Proof.
  revert made. induction todo as [|c rest IH]; intros made; simpl.
  - pres.
  - intros w. unfold bind at 1. unfold read_fs.
    destruct (fs w !! (made ++ [c])) as [[|d|m|]|] eqn:E; simpl; try reflexivity.
    + apply IH.
    + unfold bind, write_fs.
      etransitivity; [apply (grows_mkdir_write w (made ++ [c]) E)|].
      apply IH.
Qed.

Lemma mkdir_grows p : preserves grows (mkdir p).
Proof. apply mkdir_from_grows. Qed.

Lemma preserves_weaken (R R' : relation World) {A} (m : M A) :
  (∀ w w', R w w' → R' w w') → preserves R m → preserves R' m.
Proof. intros H Hm w. apply H, Hm. Qed.

Lemma copy_tags_grows wav_file mp3_file :
  preserves grows (copy_tags lib wav_file mp3_file).
Proof.
  unfold copy_tags, WAVE_tags, MP3_open, _copy_id3_from_wav_id3, _copy_from_riff_info.
  pres.
  - apply (preserves_weaken same_fs); [apply same_fs_grows | apply clone_all_same_fs].
  - apply save_grows.
  - apply (preserves_weaken same_fs); [apply same_fs_grows | apply riff_info_frames_same_fs].
  - apply save_grows.
Qed.

Lemma convert_one_grows wav_file src_root dst_root bitrate dry_run :
  preserves grows (convert_one lib wav_file src_root dst_root bitrate dry_run).
Proof.
  unfold convert_one, exists_, from_wav. pres.
  - apply mkdir_grows.
  - apply export_grows.
  - apply copy_tags_grows.
Qed.

End FsTheory.

(** ** Directory creation *)


Lemma take_snoc_step (made : path) c rest k :
  made ++ take (S k) (c :: rest) = (made ++ [c]) ++ take k rest.
Proof. simpl. by rewrite <- app_assoc. Qed.


Lemma mkdir_from_cons made c rest w :
  mkdir_from made (c :: rest) w =
    match fs w !! (made ++ [c]) with
    | Some Dir => mkdir_from (made ++ [c]) rest w
    | Some _ => (Raise FileExistsError, w)
    | None => mkdir_from (made ++ [c]) rest (after_mkdir_write w (made ++ [c]))
    end.
Proof.
  simpl. unfold bind, read_fs, write_fs, raise.
  destruct (fs w !! (made ++ [c])) as [[]|]; reflexivity.
Qed.

Lemma mkdir_from_spec made todo w :
  (∀ q n, fs w !! q = Some n → fs (mkdir_from made todo w).2 !! q = Some n)
  ∧ (∀ q n, fs (mkdir_from made todo w).2 !! q = Some n →
       fs w !! q = Some n
       ∨ (n = Dir ∧ ∃ k, 0 < k ≤ length todo ∧ q = made ++ take k todo))
  ∧ ((mkdir_from made todo w).1 = Ok tt →
     ∀ k, 0 < k ≤ length todo →
          fs (mkdir_from made todo w).2 !! (made ++ take k todo) = Some Dir)
  ∧ log (mkdir_from made todo w).2 = log w
  ∧ console (mkdir_from made todo w).2 = console w.
Proof.
  revert made w. induction todo as [|c rest IH]; intros made w.
  - simpl. split; [auto|]. split; [auto|]. split; [|done]. intros _ k Hk. lia.
  - rewrite mkdir_from_cons.
    destruct (fs w !! (made ++ [c])) as [n0|] eqn:E.
    + assert (Hcase : n0 = Dir ∨ n0 ≠ Dir) by (destruct n0; auto).
      destruct Hcase as [->|Hn].
      * destruct (IH (made ++ [c]) w) as (Hk & Hnew & Hd & Hl & Hc).
        split; [exact Hk|]. split; [|split; [|done]].
        -- intros q n Hq. destruct (Hnew q n Hq) as [?|(-> & k & Hk1 & ->)]; [auto|].
           right. split; [done|]. exists (S k). split; [simpl; lia|].
           by rewrite take_snoc_step.
        -- intros Hr k Hk1. destruct k as [|k]; [lia|].
           rewrite take_snoc_step. destruct k as [|k].
           ++ rewrite take_0, app_nil_r. by apply Hk.
           ++ apply Hd; [done|]. simpl in Hk1. lia.
      * assert (Hw : (match n0 with
                      | Dir => mkdir_from (made ++ [c]) rest w
                      | _ => (Raise FileExistsError, w)
                      end) = (Raise FileExistsError, w)) by (by destruct n0).
        rewrite Hw. simpl. split; [auto|]. split; [auto|]. split; [done|done].
    + set (w1 := after_mkdir_write w (made ++ [c])).
      destruct (IH (made ++ [c]) w1) as (Hk & Hnew & Hd & Hl & Hc).
      split; [|split; [|split; [|done]]].
      * intros q n Hq. apply Hk. simpl.
        rewrite lookup_insert_ne; [done|]. intros <-. congruence.
      * intros q n Hq. destruct (Hnew q n Hq) as [Hq1|(-> & k & Hk1 & ->)].
        -- simpl in Hq1. destruct (decide (made ++ [c] = q)) as [<-|Hne].
           ++ rewrite lookup_insert_eq in Hq1. inversion Hq1; subst.
              right. split; [done|]. exists 1. split; [simpl; lia|].
              simpl. by rewrite take_0.
           ++ rewrite lookup_insert_ne in Hq1 by done. auto.
        -- right. split; [done|]. exists (S k). split; [simpl; lia|].
           by rewrite take_snoc_step.
      * intros Hr k Hk1. destruct k as [|k]; [lia|].
        rewrite take_snoc_step. destruct k as [|k].
        -- rewrite take_0, app_nil_r. apply Hk. simpl. apply lookup_insert_eq.
        -- apply Hd; [done|]. simpl in Hk1. lia.
Qed.

Lemma mkdir_from_noop made todo w :
  (∀ k, 0 < k ≤ length todo → fs w !! (made ++ take k todo) = Some Dir) →
  mkdir_from made todo w = (Ok tt, w).
Proof.
  revert made. induction todo as [|c rest IH]; intros made H; [done|].
  rewrite mkdir_from_cons.
  assert (E : fs w !! (made ++ [c]) = Some Dir).
  { specialize (H 1). simpl in H. rewrite take_0 in H. apply H. lia. }
  rewrite E. apply IH. intros k Hk.
  rewrite <- take_snoc_step. apply H. simpl. lia.
Qed.

Lemma mkdir_from_creatable made todo w :
  (∀ k n, 0 < k ≤ length todo → fs w !! (made ++ take k todo) = Some n → n = Dir) →
  (mkdir_from made todo w).1 = Ok tt.
Proof.
  revert made w. induction todo as [|c rest IH]; intros made w H; [done|].
  rewrite mkdir_from_cons.
  destruct (fs w !! (made ++ [c])) as [n0|] eqn:E.
  - assert (n0 = Dir) as ->.
    { apply (H 1); [simpl; lia|]. simpl. by rewrite take_0. }
    apply IH. intros k n Hk Hq. rewrite <- take_snoc_step in Hq.
    apply (H (S k)); [simpl; lia | done].
  - apply IH. simpl. intros k n Hk Hq.
    rewrite <- take_snoc_step in Hq.
    destruct (decide (made ++ [c] = made ++ take (S k) (c :: rest))) as [Heq|Hne].
    + rewrite <- Heq, lookup_insert_eq in Hq. by inversion Hq.
    + rewrite lookup_insert_ne in Hq by done.
      apply (H (S k)); [simpl; lia | done].
Qed.

Lemma mkdir_keeps p w q n :
  fs w !! q = Some n → fs (mkdir p w).2 !! q = Some n.
Proof. apply (mkdir_from_spec [] p w). Qed.

Lemma mkdir_only_dirs p w q n :
  fs (mkdir p w).2 !! q = Some n →
  fs w !! q = Some n ∨ (n = Dir ∧ ∃ k, 0 < k ≤ length p ∧ q = take k p).
Proof. apply (mkdir_from_spec [] p w). Qed.

Lemma mkdir_log p w :
  log (mkdir p w).2 = log w ∧ console (mkdir p w).2 = console w.
Proof. apply (mkdir_from_spec [] p w). Qed.

Lemma mkdir_ok_dirs p w :
  (mkdir p w).1 = Ok tt → dirs_ok (fs (mkdir p w).2) p.
Proof.
  intros H k Hk.
  by apply (proj1 (proj2 (proj2 (mkdir_from_spec [] p w))) H k).
Qed.

Lemma mkdir_noop p w : dirs_ok (fs w) p → mkdir p w = (Ok tt, w).
Proof. intros H. apply mkdir_from_noop. intros k Hk. by apply H. Qed.

Lemma mkdir_creatable p w : creatable (fs w) p → (mkdir p w).1 = Ok tt.
Proof. intros H. apply mkdir_from_creatable. intros k n Hk. by apply H. Qed.

Lemma dirs_ok_grows f f' p : fs_grows f f' → dirs_ok f p → dirs_ok f' p.
Proof.
  intros Hg Hd k Hk. destruct (Hg _ _ (Hd k Hk)) as (n' & Hn' & Hdir).
  rewrite Hn'. f_equal. by apply Hdir.
Qed.

Lemma is_Some_grows f f' (p : path) :
  fs_grows f f' → is_Some (f !! p) → is_Some (f' !! p).
Proof. intros Hg [n Hn]. destruct (Hg _ _ Hn) as (n' & Hn' & _). eauto. Qed.

(** ** The conversion worker *)

Lemma bind_ok {A B} (m : M A) (k : A → M B) w a w' :
  m w = (Ok a, w') → bind m k w = k a w'.
Proof. intros H. unfold bind. by rewrite H. Qed.

Lemma bind_raise {A B} (m : M A) (k : A → M B) w e w' :
  m w = (Raise e, w') → bind m k w = (Raise e, w').
Proof. intros H. unfold bind. by rewrite H. Qed.

Lemma try_except_total {A} (body : M A) (handler : exn → M A) w :
  (∀ e w1, ∃ a w', handler e w1 = (Ok a, w')) →
  ∃ a w', try_except body handler w = (Ok a, w').
Proof.
  intros H. unfold try_except. destruct (body w) as [[a|e] w1]; eauto.
Qed.

Section WorkerTheory.
Context (lib : Library).

Lemma resolve_shape wav_file src_root dst_root mp3_file :
  resolve wav_file src_root dst_root = Ok mp3_file →
  ∃ rel name,
    relative_to wav_file src_root = Ok rel
    ∧ last rel = Some name
    ∧ mp3_file = dst_root ++ removelast rel ++ [with_suffix_name name ".mp3"].
Proof.
  unfold resolve, with_suffix. intros H.
  destruct (relative_to wav_file src_root) as [rel|e]; [|done].
  destruct (last rel) as [name|] eqn:El; [|done].
  destruct (String.eqb name EmptyString); [done|].
  inversion H. eauto.
Qed.

Lemma resolve_nonempty wav_file src_root dst_root mp3_file :
  resolve wav_file src_root dst_root = Ok mp3_file → mp3_file ≠ [].
Proof.
  intros (rel & name & _ & _ & ->)%resolve_shape.
  intros H. apply app_eq_nil in H as [_ H]. apply app_eq_nil in H as [_ H]. done.
Qed.

Lemma node_at_nonempty (f : FS) (p : path) : p ≠ [] → node_at f p = f !! p.
Proof. by destruct p. Qed.

Lemma exists_eq p w :
  exists_ p w = (Ok (bool_decide (is_Some (node_at (fs w) p))), w).
Proof. reflexivity. Qed.

(** Once the parent directories are there, creating them is a no-op: the
    worker behaves as if started after the directory creation. *)
Lemma convert_one_after_mkdir wav src dst br dry w mp3 w1 :
  resolve wav src dst = Ok mp3 →
  mkdir (parent mp3) w = (Ok tt, w1) →
  convert_one lib wav src dst br dry w = convert_one lib wav src dst br dry w1.
Proof.
  intros Hr Hm. unfold convert_one. rewrite Hr.
  assert (Hd : dirs_ok (fs w1) (parent mp3)).
  { pose proof (mkdir_ok_dirs (parent mp3) w) as H. rewrite Hm in H. by apply H. }
  rewrite !(bind_ok (lift (Ok mp3)) _ _ mp3 _ eq_refl).
  rewrite (bind_ok _ _ _ _ _ Hm).
  by rewrite (bind_ok _ _ _ _ _ (mkdir_noop _ _ Hd)).
Qed.

Lemma convert_one_mkdir_raises wav src dst br dry w mp3 e w1 :
  resolve wav src dst = Ok mp3 →
  mkdir (parent mp3) w = (Raise e, w1) →
  convert_one lib wav src dst br dry w = (Raise e, w1).
Proof.
  intros Hr Hm. unfold convert_one. rewrite Hr.
  unfold bind at 1. unfold lift. unfold bind at 1. by rewrite Hm.
Qed.

Lemma convert_one_resolve_raises wav src dst br dry w e :
  resolve wav src dst = Raise e →
  convert_one lib wav src dst br dry w = (Raise e, w).
Proof.
  intros Hr. unfold convert_one. rewrite Hr. reflexivity.
Qed.

(** The destination is there: skipped, and nothing but the log changes. *)
Lemma convert_one_skips wav src dst br dry w mp3 :
  resolve wav src dst = Ok mp3 →
  dirs_ok (fs w) (parent mp3) →
  is_Some (fs w !! mp3) →
  convert_one lib wav src dst br dry w = (Ok skipped, logged w INFO (EvSkipped mp3)).
Proof.
  intros Hr Hd Hex. unfold convert_one. rewrite Hr.
  unfold bind at 1. unfold lift. unfold bind at 1. rewrite (mkdir_noop _ _ Hd).
  unfold bind at 1. rewrite exists_eq.
  rewrite (node_at_nonempty _ _ (resolve_nonempty _ _ _ _ Hr)).
  rewrite bool_decide_eq_true_2 by done. reflexivity.
Qed.

(** The destination is missing and the worker runs dry: nothing happens. *)
Lemma convert_one_dry wav src dst br w mp3 :
  resolve wav src dst = Ok mp3 →
  dirs_ok (fs w) (parent mp3) →
  fs w !! mp3 = None →
  convert_one lib wav src dst br true w = (Ok would_convert, w).
Proof.
  intros Hr Hd Hex. unfold convert_one. rewrite Hr.
  unfold bind at 1. unfold lift. unfold bind at 1. rewrite (mkdir_noop _ _ Hd).
  unfold bind at 1. rewrite exists_eq.
  rewrite (node_at_nonempty _ _ (resolve_nonempty _ _ _ _ Hr)).
  rewrite bool_decide_eq_false_2; [reflexivity|]. rewrite Hex. by intros [? ?].
Qed.

(** The destination is missing and the worker converts: what it returns in
    each case of decoding and encoding. *)
Lemma convert_one_attempt wav src dst br w mp3 :
  resolve wav src dst = Ok mp3 →
  dirs_ok (fs w) (parent mp3) →
  fs w !! mp3 = None →
  convert_one lib wav src dst br false w =
    match fs w !! wav with
    | Some (WavFile d) =>
        if wav_decodable d then
          if export_fails lib mp3 br
          then (Ok failed, logged w ERROR (EvError wav CodecError))
          else
            let r := copy_tags lib wav mp3 (exported w mp3 wav br) in
            (Ok converted, logged r.2 INFO (EvConverted wav mp3 (copied_of r.1)))
        else (Ok failed, logged w ERROR (EvError wav CodecError))
    | _ => (Ok failed, logged w ERROR (EvError wav CodecError))
    end.
Proof.
  intros Hr Hd Hex. unfold convert_one. rewrite Hr.
  unfold bind at 1. unfold lift. unfold bind at 1. rewrite (mkdir_noop _ _ Hd).
  unfold bind at 1. rewrite exists_eq.
  rewrite (node_at_nonempty _ _ (resolve_nonempty _ _ _ _ Hr)).
  rewrite bool_decide_eq_false_2 by (rewrite Hex; by intros [? ?]).
  unfold try_except, from_wav. unfold bind at 1. unfold bind at 1. unfold read_fs.
  destruct (fs w !! wav) as [[|d| |]|] eqn:Ew; try reflexivity.
  destruct (wav_decodable d); [|reflexivity].
  unfold ret at 1. unfold bind at 1. unfold export.
  destruct (export_fails lib mp3 br); [reflexivity|].
  unfold bind at 1. unfold read_fs. rewrite Hex. unfold write_fs.
  fold (exported w mp3 wav br).
  unfold bind at 1.
  destruct (copy_tags_never_raises lib wav mp3 (exported w mp3 wav br)) as (n & w3 & ->).
  reflexivity.
Qed.

(** Whatever decoding and encoding do, a worker whose directories can be
    created returns a status. *)
Lemma convert_one_returns wav src dst br dry w mp3 :
  resolve wav src dst = Ok mp3 →
  creatable (fs w) (parent mp3) →
  ∃ st w', convert_one lib wav src dst br dry w = (Ok st, w')
           ∧ dirs_ok (fs w') (parent mp3).
Proof.
  intros Hr Hc.
  pose proof (mkdir_creatable _ _ Hc) as Hm.
  pose proof (mkdir_ok_dirs (parent mp3) w Hm) as Hd.
  destruct (mkdir (parent mp3) w) as [r w1] eqn:Em. simpl in Hm, Hd. subst r.
  rewrite (convert_one_after_mkdir _ _ _ _ _ _ _ _ Hr Em).
  destruct (fs w1 !! mp3) as [n|] eqn:Ex.
  - rewrite (convert_one_skips _ _ _ _ _ _ _ Hr Hd) by eauto. eauto.
  - destruct dry.
    + rewrite (convert_one_dry _ _ _ _ _ _ Hr Hd Ex). eauto.
    + pose proof (convert_one_grows lib wav src dst br false w1) as [Hg _].
      destruct (convert_one lib wav src dst br false w1) as [r w'] eqn:Ec.
      simpl in Hg.
      rewrite (convert_one_attempt _ _ _ _ _ _ Hr Hd Ex) in Ec.
      assert (∃ st, r = Ok st) as [st ->].
      { destruct (fs w1 !! wav) as [[|d| |]|]; try (inversion Ec; eauto; fail).
        destruct (wav_decodable d), (export_fails lib mp3 br); inversion Ec; eauto. }
      exists st, w'. split; [done|]. by eapply dirs_ok_grows.
Qed.


End WorkerTheory.

(** ** The pool *)

Section PoolTheory.
Context (lib : Library).


Lemma submit_all_grows files src dst br :
  preserves grows (submit_all lib files src dst br).
Proof.
  induction files as [|wav rest IH]; simpl; pres.
  apply convert_one_grows.
Qed.





End PoolTheory.




Section WorkerOutcomes.
Context (lib : Library).

Lemma mkdir_parent_absent mp3 w :
  mp3 ≠ [] → fs w !! mp3 = None → fs (mkdir (parent mp3) w).2 !! mp3 = None.
Proof.
  intros Hne Hab.
  destruct (fs (mkdir (parent mp3) w).2 !! mp3) as [n|] eqn:E; [|done].
  destruct (mkdir_only_dirs _ _ _ _ E) as [H|(_ & k & _ & Hk)]; [congruence|].
  exfalso. assert (Hl : length mp3 = length (take k (parent mp3))) by (by rewrite <- Hk).
  rewrite length_take in Hl. unfold parent in Hl.
  assert (length (removelast mp3) < length mp3); [|lia].
  destruct (exists_last Hne) as (l & a & ->).
  rewrite removelast_last, length_app. simpl. lia.
Qed.


End WorkerOutcomes.






(** *** The worker of the first thread-pool version *)

Section FirstVersionTheory.
Context (lib : Library).

Lemma read_wav_tags_same_fs wav : preserves same_fs (read_wav_tags wav).
Proof. unfold read_wav_tags, WAVE_tags. pres. Qed.

Lemma export_with_tags_grows audio mp3_file bitrate tgs :
  preserves grows (export_with_tags lib audio mp3_file bitrate tgs).
Proof.
  unfold export_with_tags. destruct (export_fails lib mp3_file bitrate); [pres|].
  intros w. unfold bind, read_fs. simpl.
  destruct (fs w !! mp3_file) as [[|d|m|]|] eqn:E; simpl; try reflexivity;
    apply grows_write; intros n0 Hn0; rewrite E in Hn0; by inversion Hn0.
Qed.

Lemma process_file_grows wav src dst br :
  preserves grows (process_file lib wav src dst br).
Proof.
  unfold process_file, exists_, from_wav. pres.
  - apply mkdir_grows.
  - apply (preserves_weaken same_fs); [apply same_fs_grows | apply read_wav_tags_same_fs].
  - apply export_with_tags_grows.
Qed.

Lemma process_file_total wav src dst br w :
  ∃ st w', process_file lib wav src dst br w = (Ok st, w').
Proof.
  unfold process_file. apply try_except_total.
  intros e w1. unfold bind, logging, ret. eauto.
Qed.

Lemma process_file_after_mkdir wav src dst br w mp3 w1 :
  resolve wav src dst = Ok mp3 →
  mkdir (parent mp3) w = (Ok tt, w1) →
  process_file lib wav src dst br w = process_file lib wav src dst br w1.
Proof.
  intros Hr Hm. unfold process_file, try_except. rewrite Hr.
  assert (Hd : dirs_ok (fs w1) (parent mp3)).
  { pose proof (mkdir_ok_dirs (parent mp3) w) as H. rewrite Hm in H. by apply H. }
  rewrite !(bind_ok (lift (Ok mp3)) _ _ mp3 _ eq_refl).
  rewrite (bind_ok _ _ _ _ _ Hm).
  by rewrite (bind_ok _ _ _ _ _ (mkdir_noop _ _ Hd)).
Qed.

Lemma process_file_skips wav src dst br w mp3 :
  resolve wav src dst = Ok mp3 →
  dirs_ok (fs w) (parent mp3) →
  is_Some (fs w !! mp3) →
  process_file lib wav src dst br w
  = (Ok "skipped", logged w INFO (EvSkippedName (name mp3))).
Proof.
  intros Hr Hd Hex. unfold process_file, try_except. rewrite Hr.
  rewrite (bind_ok (lift (Ok mp3)) _ _ mp3 _ eq_refl).
  rewrite (bind_ok _ _ _ _ _ (mkdir_noop _ _ Hd)).
  rewrite (bind_ok _ _ _ _ _ (exists_eq mp3 w)).
  rewrite (node_at_nonempty _ _ (resolve_nonempty _ _ _ _ Hr)).
  rewrite bool_decide_eq_true_2 by done. reflexivity.
Qed.

End FirstVersionTheory.

(** C10: a worker whose destination directories can be created creates
    them before it looks for the destination: it returns a status, the
    parent directories of the destination are directories afterwards, and a
    Skipped task, like a WouldConvert task of a dry-run worker, leaves
    exactly the file system that the directory creation produced.  The
    worker of the first thread-pool version does the same for its Skipped
    tasks. *)
Theorem C10_parent_directories_created_first
    (lib : Library) (wav src dst : path) (br : string) (dry : bool)
    (w : World) (mp3 : path) :
  resolve wav src dst = Ok mp3 →
  creatable (fs w) (parent mp3) →
  (∃ st w',
     convert_one lib wav src dst br dry w = (Ok st, w')
     ∧ dirs_ok (fs w') (parent mp3)
     ∧ (is_Some (fs w !! mp3) →
        st = skipped ∧ fs w' = fs (mkdir (parent mp3) w).2)
     ∧ (fs w !! mp3 = None → dry = true →
        st = would_convert ∧ fs w' = fs (mkdir (parent mp3) w).2))
  ∧ (∃ st w',
       process_file lib wav src dst br w = (Ok st, w')
       ∧ dirs_ok (fs w') (parent mp3)
       ∧ (is_Some (fs w !! mp3) →
          st = "skipped" ∧ fs w' = fs (mkdir (parent mp3) w).2)).
Proof.
  intros Hr Hc.
  pose proof (mkdir_creatable _ _ Hc) as Hm.
  pose proof (mkdir_ok_dirs (parent mp3) w Hm) as Hd.
  assert (Em : mkdir (parent mp3) w = (Ok tt, (mkdir (parent mp3) w).2)).
  { destruct (mkdir (parent mp3) w) as [r w']. simpl in *. by subst. }
  set (w1 := (mkdir (parent mp3) w).2) in *.
  split.
  - destruct (convert_one_returns lib wav src dst br dry w mp3 Hr Hc)
      as (st & w' & Hco & Hdirs).
    exists st, w'. split; [done|]. split; [done|].
    rewrite (convert_one_after_mkdir lib _ _ _ _ _ _ _ _ Hr Em) in Hco.
    split.
    + intros [n Hn]. pose proof (mkdir_keeps (parent mp3) w _ _ Hn) as Hn1.
      fold w1 in Hn1.
      rewrite (convert_one_skips lib _ _ _ _ _ _ _ Hr Hd) in Hco by eauto.
      by inversion Hco.
    + intros Hab ->.
      pose proof (mkdir_parent_absent mp3 w (resolve_nonempty _ _ _ _ Hr) Hab) as Hab1.
      fold w1 in Hab1.
      rewrite (convert_one_dry lib _ _ _ _ _ _ Hr Hd Hab1) in Hco.
      by inversion Hco.
  - destruct (process_file_total lib wav src dst br w) as (st & w' & Hp).
    exists st, w'. split; [done|].
    rewrite (process_file_after_mkdir lib _ _ _ _ _ _ _ Hr Em) in Hp.
    pose proof (process_file_grows lib wav src dst br w1) as [Hg _].
    rewrite Hp in Hg. simpl in Hg.
    split; [by eapply dirs_ok_grows|].
    intros [n Hn]. pose proof (mkdir_keeps (parent mp3) w _ _ Hn) as Hn1.
    fold w1 in Hn1.
    rewrite (process_file_skips lib _ _ _ _ _ _ Hr Hd) in Hp by eauto.
    by inversion Hp.
Qed.

Lemma C10_parent_directories_created_first_witness :
  fs (world_of album_fs) !! ["out"; "a"] = None
  ∧ ∃ st w',
      convert_one mutagen ["src"; "a"; "1.wav"] ["src"] ["out"] "192k" true
        (world_of album_fs) = (Ok st, w')
      ∧ fs w' !! ["out"; "a"] = Some Dir
      ∧ st = would_convert.
Proof.
  split; [vm_compute; reflexivity|].
  destruct (C10_parent_directories_created_first mutagen
              ["src"; "a"; "1.wav"] ["src"] ["out"] "192k" true (world_of album_fs)
              ["out"; "a"; "1.mp3"])
    as [(st & w' & H1 & H2 & _ & H4) _].
  - vm_compute; reflexivity.
  - intros k n Hk Hn. destruct k as [|[|[|k]]]; simpl in Hk; try lia;
      vm_compute in Hn; discriminate.
  - exists st, w'. split; [exact H1|]. split.
    + apply (H2 2). simpl. lia.
    + apply H4; [vm_compute|]; reflexivity.
Defined.

(** ** The run *)

Lemma relative_to_app p root rel :
  relative_to p root = Ok rel → p = root ++ rel.
Proof.
  revert p. induction root as [|o root IH]; intros p H.
  - destruct p; by inversion H.
  - destruct p as [|c p]; simpl in H; [inversion H|].
    destruct (String.eqb c o) eqn:E; [|inversion H].
    apply String.eqb_eq in E as ->. simpl. f_equal. by apply IH.
Qed.

Lemma last_app_nonempty {A} (l1 l2 : list A) :
  l2 ≠ [] → last (l1 ++ l2) = last l2.
Proof.
  intros H. destruct (exists_last H) as (l & a & ->).
  by rewrite app_assoc, !last_snoc.
Qed.

Lemma endswith_nonempty s : endswith s ".wav" = true → s ≠ EmptyString.
Proof.
  unfold endswith. intros [_ H]%andb_true_iff.
  apply Nat.leb_le in H. intros ->. simpl in H. lia.
Qed.

Lemma matches_star_wav_nonempty (cs : bool) (name : string) :
  matches_star_wav cs name = true → name ≠ EmptyString.
Proof.
  unfold matches_star_wav. intros H%endswith_nonempty.
  destruct cs; [done|]. intros ->. by apply H.
Qed.

Lemma rglob_elem (cs : bool) (f : FS) (src wav : path) :
  wav ∈ rglob_wav_sorted cs f src → wav_candidate cs src wav = true.
Proof.
  unfold rglob_wav_sorted. rewrite merge_sort_Permutation.
  intros [H _]%list_elem_of_filter. by apply Is_true_true.
Qed.

(** Every discovered file has a destination. *)
Lemma candidate_resolves (cs : bool) (src dst wav : path) :
  wav_candidate cs src wav = true →
  ∃ rel name,
    relative_to wav src = Ok rel
    ∧ wav = src ++ rel
    ∧ last rel = Some name
    ∧ last wav = Some name
    ∧ matches_star_wav cs name = true
    ∧ resolve wav src dst = Ok (dst ++ removelast rel ++ [with_suffix_name name ".mp3"]).
Proof.
  unfold wav_candidate, is_below. intros [Hb Hm]%andb_true_iff.
  destruct (relative_to wav src) as [rel|] eqn:Er; [|done].
  destruct rel as [|c rel']; [done|].
  pose proof (relative_to_app _ _ _ Er) as Hw.
  destruct (last wav) as [name|] eqn:El; [|done].
  assert (Hl : last (c :: rel') = Some name).
  { rewrite <- El, Hw. by rewrite last_app_nonempty. }
  exists (c :: rel'), name. repeat split; try done.
  unfold resolve. rewrite Er. unfold with_suffix. rewrite Hl.
  pose proof (matches_star_wav_nonempty _ _ Hm) as Hne.
  destruct (String.eqb name EmptyString) eqn:E; [|done].
  apply String.eqb_eq in E. done.
Qed.

Lemma log_file_not_created_by_mkdir dst w :
  fs w !! (dst ++ ["conversion.log"]) ≠ Some Dir →
  fs (mkdir dst w).2 !! (dst ++ ["conversion.log"]) ≠ Some Dir.
Proof.
  intros H Hd. destruct (mkdir_only_dirs _ _ _ _ Hd) as [?|(_ & k & _ & Hk)]; [done|].
  assert (Hl : length (dst ++ ["conversion.log"]) = length (take k dst)) by (by rewrite <- Hk).
  rewrite length_app, length_take in Hl. simpl in Hl. lia.
Qed.

Section RunTheory.
Context (lib : Library).

Lemma preview_loop_same_fs files shown :
  preserves same_fs (preview_loop files shown).
Proof.
  revert shown. induction files as [|wav rest IH]; intros shown; simpl.
  - pres.
  - unfold WAVE_tags. pres; apply IH.
Qed.

Lemma preview_loop_total files shown w :
  ∃ n w', preview_loop files shown w = (Ok n, w').
Proof.
  revert shown w. induction files as [|wav rest IH]; intros shown w; simpl.
  - unfold ret. eauto.
  - unfold bind at 1.
    match goal with
    | |- context [try_except ?b ?h w] =>
        destruct (try_except_total b h w) as (s & w1 & ->)
    end.
    + intros e w1. unfold bind, console_print, ret. eauto.
    + apply IH.
Qed.

Lemma preview_tags_ok files limit w :
  ∃ w', preview_tags files limit w = (Ok tt, w')
        ∧ fs w' = fs w ∧ fs_trace w' = fs_trace w.
Proof.
  unfold preview_tags. unfold bind.
  pose proof (preview_loop_same_fs (take limit files) 0 w) as [Hf Ht].
  destruct (preview_loop_total (take limit files) 0 w) as (n & w' & Hp).
  rewrite Hp in Hf, Ht |- *. simpl in Hf, Ht.
  destruct (Nat.eqb n 0); simpl; eauto.
Qed.

Lemma setup_logging_spec log_file w :
  fs w !! log_file ≠ Some Dir →
  ∃ w', setup_logging log_file w = (Ok tt, w')
        ∧ (∀ q n, fs w !! q = Some n → fs w' !! q = Some n)
        ∧ (∀ q n, fs w' !! q = Some n →
             fs w !! q = Some n ∨ (n = OtherFile ∧ q = log_file))
        ∧ log w' = log w ∧ console w' = console w.
Proof.
  intros Hnd. unfold setup_logging, bind, read_fs.
  destruct (fs w !! log_file) as [[|d|m|]|] eqn:E; try done; simpl;
    try (exists w; repeat split; auto; fail).
  eexists. split; [reflexivity|]. simpl. repeat split; auto.
  - intros q n Hq. rewrite lookup_insert_ne; [done|]. intros <-. congruence.
  - intros q n Hq. destruct (decide (log_file = q)) as [<-|Hne].
    + rewrite lookup_insert_eq in Hq. inversion Hq. auto.
    + rewrite lookup_insert_ne in Hq by done. auto.
Qed.

(** The dry-run loop looks at destinations and changes nothing. *)
Lemma dry_run_loop_spec files src dst a b w :
  Forall (λ wav, ∃ mp3, resolve wav src dst = Ok mp3) files →
  ∃ a' b', dry_run_loop files src dst a b w = (Ok (a', b'), w)
           ∧ a' + b' = a + b + length files.
Proof.
  revert a b. induction files as [|wav rest IH]; intros a b H; simpl.
  - unfold ret. exists a, b. split; [done|lia].
  - inversion H as [|? ? [mp3 Hr] Hrest]; subst.
    rewrite Hr. unfold bind at 1. unfold lift. unfold bind at 1. rewrite exists_eq.
    destruct (bool_decide (is_Some (node_at (fs w) mp3))).
    + destruct (IH a (b + 1) Hrest) as (a' & b' & -> & Hs).
      exists a', b'. split; [done|lia].
    + destruct (IH (a + 1) b Hrest) as (a' & b' & -> & Hs).
      exists a', b'. split; [done|lia].
Qed.


(** What a run does before it looks for files: the destination root and the
    log file are created, nothing else changes; the run goes on in the world
    [w3]. *)
Lemma run_conversion_preamble src dst br workers dry pc w :
  is_Some (node_at (fs w) src) →
  creatable (fs w) dst →
  fs w !! (dst ++ ["conversion.log"]) ≠ Some Dir →
  ∃ w3,
    (∀ q n, fs w !! q = Some n → fs w3 !! q = Some n)
    ∧ (∀ q n, fs w3 !! q = Some n →
         fs w !! q = Some n
         ∨ (n = Dir ∧ ∃ k, 0 < k ≤ length dst ∧ q = take k dst)
         ∨ (n = OtherFile ∧ q = dst ++ ["conversion.log"]))
    ∧ run_conversion lib src dst br workers dry pc w =
      match rglob_wav_sorted (glob_case_sensitive lib) (fs w3) src with
      | [] => console_print PrNoWavFiles
      | _ =>
          console_print
            (PrFound (length (rglob_wav_sorted (glob_case_sensitive lib) (fs w3) src))) ;;
          (if dry then console_print PrDryRunActive else ret tt) ;;
          (if (0 <? pc)%Z
           then preview_tags (rglob_wav_sorted (glob_case_sensitive lib) (fs w3) src)
                  (Z.to_nat pc)
           else ret tt) ;;
          if dry then
            r <- dry_run_loop (rglob_wav_sorted (glob_case_sensitive lib) (fs w3) src)
                   src dst 0 0 ;;
            console_print (PrDryRunTable r.1 r.2)
          else
            futures <- submit_all lib
                         (rglob_wav_sorted (glob_case_sensitive lib) (fs w3) src)
                         src dst br ;;
            r <- collect futures 0 0 0 ;;
            console_print (PrResultTable r.1.1 r.1.2 r.2) ;;
            logging INFO (EvDone r.1.1 r.1.2 r.2)
      end w3.
Proof.
  intros Hsrc Hcr Hlog.
  pose proof (mkdir_creatable _ _ Hcr) as Hm.
  assert (Em : mkdir dst w = (Ok tt, (mkdir dst w).2)).
  { destruct (mkdir dst w) as [r w1]. simpl in *. by subst. }
  set (w1 := (mkdir dst w).2) in *.
  destruct (setup_logging_spec (dst ++ ["conversion.log"]) w1
              (log_file_not_created_by_mkdir dst w Hlog))
    as (w2 & Es & Hkeep2 & Hnew2 & _ & _).
  exists (logged w2 INFO (EvStart src dst br workers dry)).
  split; [|split].
  - intros q n Hq. simpl. apply Hkeep2. by apply mkdir_keeps.
  - intros q n Hq. simpl in Hq. destruct (Hnew2 q n Hq) as [Hq1|?]; [|auto].
    destruct (mkdir_only_dirs _ _ _ _ Hq1) as [?|?]; auto.
  - unfold run_conversion.
    rewrite (bind_ok _ _ _ _ _ (exists_eq src w)).
    rewrite bool_decide_eq_true_2 by done. cbn [negb].
    rewrite (bind_ok _ _ _ _ _ Em). cbv zeta.
    rewrite (bind_ok _ _ _ _ _ Es).
    rewrite (bind_ok (logging _ _) _ w2 tt _ eq_refl).
    rewrite (bind_ok read_fs _ _ _ _ eq_refl).
    reflexivity.
Qed.


End RunTheory.

(** C9: a dry run returns normally; every node of the file system is kept as
    it was and the only nodes it adds are the destination root directories
    and the log file, so no destination audio file is created or modified;
    the loop over the discovered files only looks up destinations and leaves
    the world as it is, and the two counts of the table it prints add up to
    the number of discovered files. *)
Theorem C9_dry_run_writes_no_audio
    (lib : Library) (src dst : path) (br : string) (workers : nat) (pc : Z)
    (w : World) :
  is_Some (node_at (fs w) src) →
  creatable (fs w) dst →
  fs w !! (dst ++ ["conversion.log"]) ≠ Some Dir →
  ∃ w',
    run_conversion lib src dst br workers true pc w = (Ok tt, w')
    ∧ (∀ q n, fs w !! q = Some n → fs w' !! q = Some n)
    ∧ (∀ q n, fs w' !! q = Some n →
         fs w !! q = Some n
         ∨ (n = Dir ∧ ∃ k, 0 < k ≤ length dst ∧ q = take k dst)
         ∨ (n = OtherFile ∧ q = dst ++ ["conversion.log"]))
    ∧ (∀ q m, fs w' !! q = Some (Mp3File m) ↔ fs w !! q = Some (Mp3File m))
    ∧ (rglob_wav_sorted (glob_case_sensitive lib) (fs w') src ≠ [] →
       ∃ would_convert would_skip wl,
         dry_run_loop (rglob_wav_sorted (glob_case_sensitive lib) (fs w') src)
           src dst 0 0 wl = (Ok (would_convert, would_skip), wl)
         ∧ w' = printed wl (PrDryRunTable would_convert would_skip)
         ∧ would_convert + would_skip
           = length (rglob_wav_sorted (glob_case_sensitive lib) (fs w') src)).
Proof.
  intros Hsrc Hcr Hlog.
  destruct (run_conversion_preamble lib src dst br workers true pc w Hsrc Hcr Hlog)
    as (w3 & Hkeep & Hnew & ->).
  assert (Hmp3 : ∀ q m, fs w3 !! q = Some (Mp3File m) ↔ fs w !! q = Some (Mp3File m)).
  { intros q m. split; [|apply Hkeep].
    intros Hq. destruct (Hnew q _ Hq) as [?|[[? _]|[? _]]]; done. }
  destruct (rglob_wav_sorted (glob_case_sensitive lib) (fs w3) src) as [|f0 files0] eqn:Ef.
  { exists (printed w3 PrNoWavFiles). split; [reflexivity|].
    split; [exact Hkeep|]. split; [exact Hnew|]. split; [exact Hmp3|].
    intros Hne. exfalso. apply Hne. exact Ef. }
  set (files := f0 :: files0) in *.
  set (w4 := printed (printed w3 (PrFound (length files))) PrDryRunActive).
  assert (∃ w5, (if (0 <? pc)%Z then preview_tags files (Z.to_nat pc) else ret tt) w4
                = (Ok tt, w5) ∧ fs w5 = fs w3) as (w5 & Ep & Hf5).
  { destruct (0 <? pc)%Z.
    - destruct (preview_tags_ok files (Z.to_nat pc) w4) as (w5 & -> & Hf & _). eauto.
    - exists w4. by split. }
  assert (Hres : Forall (λ wav, ∃ mp3, resolve wav src dst = Ok mp3) files).
  { rewrite Forall_forall. intros wav Hin. rewrite <- Ef in Hin.
    apply rglob_elem in Hin.
    destruct (candidate_resolves _ _ dst _ Hin) as (rel & name & _ & _ & _ & _ & _ & Hr).
    eauto. }
  destruct (dry_run_loop_spec files src dst 0 0 w5 Hres) as (a & b & Ed & Hsum).
  exists (printed w5 (PrDryRunTable a b)).
  split.
  { rewrite (bind_ok (console_print _) _ w3 tt _ eq_refl).
    rewrite (bind_ok (console_print _) _ _ tt w4 eq_refl).
    rewrite (bind_ok _ _ _ _ _ Ep).
    rewrite (bind_ok _ _ _ _ _ Ed). reflexivity. }
  change (fs (printed w5 (PrDryRunTable a b))) with (fs w5). rewrite Hf5.
  split; [exact Hkeep|]. split; [exact Hnew|]. split; [exact Hmp3|].
  intros _. rewrite Ef. exists a, b, w5.
  split; [done|]. split; [done|]. exact Hsum.
Qed.

Lemma C9_dry_run_writes_no_audio_witness :
  ∃ w',
    run_conversion mutagen ["src"] ["out"] "192k" 2 true 0 (world_of done_fs)
    = (Ok tt, w')
    ∧ (∀ q m, fs w' !! q = Some (Mp3File m) ↔ done_fs !! q = Some (Mp3File m))
    ∧ last (console w') = Some (PrDryRunTable 0 1).
Proof.
  destruct (C9_dry_run_writes_no_audio mutagen ["src"] ["out"] "192k" 2 0
              (world_of done_fs)) as (w' & H1 & _ & _ & H4 & _).
  - eexists. vm_compute; reflexivity.
  - intros k n Hk Hn. destruct k as [|[|k]]; simpl in Hk; try lia.
    vm_compute in Hn. by inversion Hn.
  - vm_compute. discriminate.
  - exists w'. split; [exact H1|]. split; [exact H4|].
    assert (Hw : w' = (run_conversion mutagen ["src"] ["out"] "192k" 2 true 0
                         (world_of done_fs)).2) by (by rewrite H1).
    rewrite Hw. vm_compute; reflexivity.
Defined.




(** The end-to-end scenario of one broken file: the summary counts one
    failure, the log names the file, the exit status is zero. *)
Lemma broken_wav_run :
  exit_status mutagen (sample_args false) (world_of broken_fs) = 0%Z
  ∧ console broken_after_first_run = [PrFound 1; PrResultTable 0 0 1]
  ∧ (ERROR, EvError ["src"; "broken.wav"] CodecError) ∈ log broken_after_first_run.
Proof.
  split; [vm_compute; reflexivity|]. split; [vm_compute; reflexivity|].
  vm_compute. apply list_elem_of_In. simpl. auto.
Qed.

(** ** File names *)

Lemma str_length_app s1 s2 :
  String.length (s1 +:+ s2) = String.length s1 + String.length s2.
Proof. induction s1 as [|a s1 IH]; simpl; [done | by rewrite IH]. Qed.

Lemma substring_skip s1 s2 n :
  substring (String.length s1) n (s1 +:+ s2) = substring 0 n s2.
Proof. induction s1 as [|a s1 IH]; simpl; done. Qed.

Lemma substring_all s : substring 0 (String.length s) s = s.
Proof. induction s as [|a s IH]; simpl; [done | by rewrite IH]. Qed.

Lemma substring_prefix s1 s2 :
  substring 0 (String.length s1) (s1 +:+ s2) = s1.
Proof.
  induction s1 as [|a s1 IH]; simpl; [by destruct s2 | by rewrite IH].
Qed.

Lemma endswith_app s sfx : endswith (s +:+ sfx) sfx = true.
Proof.
  unfold endswith. rewrite str_length_app.
  replace (String.length s + String.length sfx - String.length sfx)
    with (String.length s) by lia.
  rewrite substring_skip, substring_all, String.eqb_refl. simpl.
  apply Nat.leb_le. lia.
Qed.

Lemma rfind_app_last c s1 s2 :
  rfind c s2 = None → rfind c (s1 +:+ String c s2) = Some (String.length s1).
Proof.
  intros H. induction s1 as [|a s1 IH]; simpl.
  - by rewrite H, Ascii.eqb_refl.
  - by rewrite IH.
Qed.

(** Whatever the old suffix was, the new name ends in the new one. *)
Lemma with_suffix_name_ends name sfx :
  endswith (with_suffix_name name sfx) sfx = true.
Proof.
  unfold with_suffix_name. destruct (String.eqb (suffix name) EmptyString); apply endswith_app.
Qed.

(** A name [stem.ext] becomes [stem] followed by the new suffix, whatever
    the letters of [ext] and their case. *)
Lemma with_suffix_name_replaces stem ext sfx :
  stem ≠ EmptyString → ext ≠ EmptyString → rfind "." ext = None →
  with_suffix_name (stem +:+ String "." ext) sfx = stem +:+ sfx.
Proof.
  intros Hs He Hr.
  assert (Hls : 0 < String.length stem) by (destruct stem; [done | simpl; lia]).
  assert (Hle : 0 < String.length ext) by (destruct ext; [done | simpl; lia]).
  assert (Hsuf : suffix (stem +:+ String "." ext) = String "." ext).
  { unfold suffix. rewrite (rfind_app_last _ _ _ Hr), str_length_app. simpl.
    replace (0 <? String.length stem) with true by (symmetry; apply Nat.ltb_lt; lia).
    replace (String.length stem <? String.length stem + S (String.length ext) - 1)
      with true by (symmetry; apply Nat.ltb_lt; lia).
    simpl.
    replace (String.length stem + S (String.length ext) - String.length stem)
      with (String.length (String "." ext)) by (simpl; lia).
    by rewrite substring_skip, substring_all. }
  unfold with_suffix_name. rewrite Hsuf. simpl.
  rewrite str_length_app. simpl.
  replace (String.length stem + S (String.length ext) - S (String.length ext))
    with (String.length stem) by lia.
  by rewrite substring_prefix.
Qed.

Lemma rglob_exists (cs : bool) (f : FS) (src wav : path) :
  wav ∈ rglob_wav_sorted cs f src → is_Some (f !! wav).
Proof.
  unfold rglob_wav_sorted. rewrite merge_sort_Permutation.
  intros [_ H]%list_elem_of_filter.
  apply list_elem_of_fmap in H as ([p n] & -> & H).
  apply elem_of_map_to_list in H. simpl. eauto.
Qed.

(** C5 (amended): every discovered source file exists below the source
    root and matches [*.wav] under the platform's casing (on a case-sensitive
    platform its name ends in lower-case [.wav]); its destination is its path
    relative to the source root, re-rooted under the destination root, with
    the name given the suffix [.mp3]; the new name always ends in lower-case
    [.mp3], and a name [stem.ext] becomes [stem.mp3] whatever the case of
    [ext]. *)
Theorem C5_destination_path (cs : bool) (f : FS) (src dst wav : path) :
  wav ∈ rglob_wav_sorted cs f src →
  ∃ rel name,
    is_Some (f !! wav)
    ∧ relative_to wav src = Ok rel
    ∧ wav = src ++ rel
    ∧ last rel = Some name
    ∧ resolve wav src dst = Ok (dst ++ removelast rel ++ [with_suffix_name name ".mp3"])
    ∧ endswith (with_suffix_name name ".mp3") ".mp3" = true
    ∧ endswith (if cs then name else lower name) ".wav" = true
    ∧ (∀ stem ext,
         name = stem +:+ String "." ext → stem ≠ EmptyString → ext ≠ EmptyString →
         rfind "." ext = None →
         with_suffix_name name ".mp3" = stem +:+ ".mp3").
Proof.
  intros Hin. pose proof (rglob_exists _ _ _ _ Hin) as Hex.
  apply rglob_elem in Hin.
  destruct (candidate_resolves _ _ dst _ Hin)
    as (rel & name & Hrel & Hw & Hl & _ & Hm & Hr).
  exists rel, name. repeat split; try done.
  - apply with_suffix_name_ends.
  - intros stem ext -> Hs He Hd. by apply with_suffix_name_replaces.
Qed.

Lemma C5_destination_path_witness :
  ∃ rel name,
    relative_to ["src"; "a"; "1.wav"] ["src"] = Ok rel
    ∧ last rel = Some name
    ∧ resolve ["src"; "a"; "1.wav"] ["src"] ["out"]
      = Ok (["out"] ++ removelast rel ++ [with_suffix_name name ".mp3"]).
Proof.
  destruct (C5_destination_path true album_fs ["src"] ["out"] ["src"; "a"; "1.wav"])
    as (rel & name & _ & H1 & _ & H2 & H3 & _).
  - vm_compute. apply list_elem_of_here.
  - exists rel, name. split; [exact H1|]. split; [exact H2 | exact H3].
Defined.

(** On a case-sensitive platform a file named [TRACK.WAV] exists below the
    source root and is not discovered: the run finds no file. *)
Lemma C5_counterexample :
  glob_case_sensitive mutagen = true
  ∧ is_Some (upper_fs !! ["src"; "TRACK.WAV"])
  ∧ (["src"; "TRACK.WAV"] ∉ rglob_wav_sorted (glob_case_sensitive mutagen) upper_fs ["src"])
  ∧ console (main mutagen (sample_args false) (world_of upper_fs)).2 = [PrNoWavFiles].
Proof.
  split; [reflexivity|]. split; [eexists; vm_compute; reflexivity|].
  split; [|vm_compute; reflexivity].
  assert (H : rglob_wav_sorted (glob_case_sensitive mutagen) upper_fs ["src"] = [])
    by (vm_compute; reflexivity).
  rewrite H. apply not_elem_of_nil.
Qed.

(** Had it been passed to the worker, the upper-case file would have got the
    lower-case destination. *)
Lemma upper_case_resolves :
  resolve ["src"; "TRACK.WAV"] ["src"] ["out"] = Ok ["out"; "TRACK.mp3"].
Proof. vm_compute; reflexivity. Qed.

(** ** The flat path *)




(** * Further properties of the code *)

(** ** Cloning one frame *)

Lemma isinstance_true frame c : isinstance frame c = true → frame_class frame = c.
Proof. unfold isinstance. by intros H%bool_decide_eq_true. Qed.

Lemma kwargs_encoding (kw d : gmap string pyval) :
  kw !! "encoding" = Some (PyInt 3) → (kw ∪ d) !! "encoding" = Some (PyInt 3).
Proof. apply lookup_union_Some_l. Qed.

Lemma clone_cases (lib : Library) (t : ID3) (key : string) (frame : Frame)
    (w : World) :
  ∃ t' copied w',
    _clone_id3_frame_to lib t key frame w = (Ok (t', copied), w')
    ∧ fs w' = fs w
    ∧ (copied = false →
       t' = t ∧ ∃ lvl ev, w' = logged w lvl ev)
    ∧ (copied = true →
       w' = w
       ∧ ∃ fr, t' = <[HashKey lib fr := fr]> t
               ∧ frame_class fr = frame_class frame
               ∧ frame_attrs fr !! "encoding" = Some (PyInt 3)).
Proof.
  unfold _clone_id3_frame_to, clone_try, construct.
  unfold bind, try_except, lift, ret, raise, logging, add.
  destruct (hasattr frame "text") eqn:Ht.
  { destruct (getattr frame "text") as [text|e];
      [destruct (frame_rejected lib (frame_class frame) _)|];
      eexists _, _, _; (split; [reflexivity|]); (split; [reflexivity|]);
      split; intros Hb; try discriminate;
      try (split; [reflexivity|]; eexists _, _; reflexivity).
    split; [reflexivity|]. eexists. split; [reflexivity|]. split; [reflexivity|].
    simpl. apply kwargs_encoding. apply lookup_insert_eq. }
  destruct (isinstance frame COMM) eqn:Hc.
  { apply isinstance_true in Hc.
    destruct (getattr frame "lang") as [lang|e];
      [destruct (getattr frame "desc") as [desc|e];
       [destruct (getattr frame "text") as [text|e];
        [destruct (frame_rejected lib COMM _)|]|]|];
      eexists _, _, _; (split; [reflexivity|]); (split; [reflexivity|]);
      split; intros Hb; try discriminate;
      try (split; [reflexivity|]; eexists _, _; reflexivity).
    split; [reflexivity|]. eexists. split; [reflexivity|]. split; [by rewrite Hc|].
    simpl. apply kwargs_encoding. apply lookup_insert_eq. }
  destruct (isinstance frame APIC) eqn:Ha.
  { apply isinstance_true in Ha.
    destruct (getattr frame "mime") as [mime|e];
      [destruct (getattr frame "type") as [type|e];
       [destruct (getattr frame "desc") as [desc|e];
        [destruct (getattr frame "data") as [data|e];
         [destruct (frame_rejected lib APIC _)|]|]|]|];
      eexists _, _, _; (split; [reflexivity|]); (split; [reflexivity|]);
      split; intros Hb; try discriminate;
      try (split; [reflexivity|]; eexists _, _; reflexivity).
    split; [reflexivity|]. eexists. split; [reflexivity|]. split; [by rewrite Ha|].
    simpl. apply kwargs_encoding. apply lookup_insert_eq. }
  destruct (isinstance frame TXXX) eqn:Hx.
  { apply isinstance_true in Hx.
    destruct (getattr frame "desc") as [desc|e];
      [destruct (getattr frame "text") as [text|e];
       [destruct (frame_rejected lib TXXX _)|]|];
      eexists _, _, _; (split; [reflexivity|]); (split; [reflexivity|]);
      split; intros Hb; try discriminate;
      try (split; [reflexivity|]; eexists _, _; reflexivity).
    split; [reflexivity|]. eexists. split; [reflexivity|]. split; [by rewrite Hx|].
    simpl. apply kwargs_encoding. apply lookup_insert_eq. }
  eexists _, _, _. split; [reflexivity|]. split; [reflexivity|].
  split; intros Hb; try discriminate.
  split; [reflexivity|]. eexists _, _. reflexivity.
Qed.

(** X1: cloning a frame never raises and leaves the file system alone.  It
    returns [False] with the tag dictionary unchanged and exactly one log
    record written, or [True] with nothing logged and exactly one frame
    stored under its hash key, a frame of the class of the source frame with
    encoding 3. *)
Theorem clone_outcome (lib : Library) (t : ID3) (key : string) (frame : Frame)
    (w : World) :
  ∃ t' copied w',
    _clone_id3_frame_to lib t key frame w = (Ok (t', copied), w')
    ∧ fs w' = fs w
    ∧ (copied = false →
       t' = t ∧ ∃ lvl ev, w' = logged w lvl ev)
    ∧ (copied = true →
       w' = w
       ∧ ∃ fr, t' = <[HashKey lib fr := fr]> t
               ∧ frame_class fr = frame_class frame
               ∧ frame_attrs fr !! "encoding" = Some (PyInt 3)).
Proof. apply clone_cases. Qed.

Lemma clone_outcome_witness :
  ∃ t' w',
    _clone_id3_frame_to mutagen ∅ "COMM:Notiz:deu" comm_deu empty_world
    = (Ok (t', true), w')
    ∧ w' = empty_world.
Proof.
  destruct (clone_outcome mutagen ∅ "COMM:Notiz:deu" comm_deu empty_world)
    as (t' & copied & w' & E & _ & _ & Ht).
  assert (H : match (_clone_id3_frame_to mutagen ∅ "COMM:Notiz:deu" comm_deu
                       empty_world).1 with
              | Ok r => r.2
              | Raise _ => false
              end = true) by (vm_compute; reflexivity).
  rewrite E in H. cbn in H. subst copied.
  exists t', w'. split; [exact E|]. by apply Ht.
Defined.

(** X2: an image frame (one without a [text] attribute) is cloned with its
    MIME type, picture type and binary payload unchanged, encoding 3, and its
    description, or the empty string when the description is missing or
    empty. *)
Theorem clone_image_frame (lib : Library) (t : ID3) (key : string) (frame : Frame)
    (mime type desc data : pyval) (w : World) :
  frame_class frame = APIC →
  frame_attrs frame !! "text" = None →
  frame_attrs frame !! "mime" = Some mime →
  frame_attrs frame !! "type" = Some type →
  frame_attrs frame !! "desc" = Some desc →
  frame_attrs frame !! "data" = Some data →
  frame_rejected lib APIC
    {[ "encoding" := PyInt 3; "mime" := mime; "type" := type;
       "desc" := py_or desc (PyStr EmptyString); "data" := data ]} = false →
  ∃ fr,
    _clone_id3_frame_to lib t key frame w = (Ok (<[HashKey lib fr := fr]> t, true), w)
    ∧ frame_class fr = APIC
    ∧ frame_attrs fr !! "encoding" = Some (PyInt 3)
    ∧ frame_attrs fr !! "mime" = Some mime
    ∧ frame_attrs fr !! "type" = Some type
    ∧ frame_attrs fr !! "data" = Some data
    ∧ frame_attrs fr !! "desc" = Some (if truthy desc then desc else PyStr EmptyString).
Proof.
  intros Hc Ht Hm Hty Hd Hda Hr.
  unfold _clone_id3_frame_to, clone_try, construct.
  unfold hasattr, isinstance, getattr. rewrite Ht, Hc, Hm, Hty, Hd, Hda.
  rewrite (bool_decide_eq_false_2 (is_Some None)) by (by intros [? ?]).
  rewrite (bool_decide_eq_false_2 (APIC = COMM)) by done.
  rewrite (bool_decide_eq_true_2 (APIC = APIC)) by done.
  unfold bind, try_except, lift, ret, raise, add. rewrite Hr.
  eexists. split; [reflexivity|]. cbn [frame_class frame_attrs].
  split; [done|].
  repeat split; apply lookup_union_Some_l; by simplify_map_eq.
Qed.

Lemma clone_image_frame_witness :
  ∃ fr,
    _clone_id3_frame_to mutagen ∅ "APIC:" apic_cover empty_world
    = (Ok (<[HashKey mutagen fr := fr]> ∅, true), empty_world)
    ∧ frame_attrs fr !! "mime" = Some (PyStr "image/png")
    ∧ frame_attrs fr !! "desc" = Some (PyStr EmptyString).
Proof.
  destruct (clone_image_frame mutagen ∅ "APIC:" apic_cover
              (PyStr "image/png") (PyInt 3) PyNone (PyBytes [Byte.x89; Byte.x50])
              empty_world) as (fr & H1 & _ & _ & H4 & _ & _ & H7);
    try (vm_compute; reflexivity).
  exists fr. split; [exact H1|]. split; [exact H4 | exact H7].
Defined.

(** X3: a frame that has no [text] attribute and is neither a comment, an
    image nor a user-defined text frame is left out: the call returns
    [False], the tag dictionary is unchanged and one info record names the
    key. *)
Theorem clone_unknown_frame (lib : Library) (t : ID3) (key : string)
    (frame : Frame) (w : World) :
  frame_attrs frame !! "text" = None →
  frame_class frame ≠ COMM →
  frame_class frame ≠ APIC →
  frame_class frame ≠ TXXX →
  _clone_id3_frame_to lib t key frame w
  = (Ok (t, false), logged w INFO (EvFrameSkipped key)).
Proof.
  intros Ht Hc Ha Hx.
  unfold _clone_id3_frame_to, clone_try, hasattr, isinstance. rewrite Ht.
  rewrite (bool_decide_eq_false_2 (is_Some None)) by (by intros [? ?]).
  rewrite !bool_decide_eq_false_2 by done.
  reflexivity.
Qed.

Lemma clone_unknown_frame_witness :
  _clone_id3_frame_to mutagen ∅ "PRIV:me" priv_frame empty_world
  = (Ok (∅, false), logged empty_world INFO (EvFrameSkipped "PRIV:me")).
Proof.
  apply (clone_unknown_frame mutagen ∅ "PRIV:me" priv_frame empty_world);
    [vm_compute; reflexivity | discriminate | discriminate | discriminate].
Defined.

(** ** The loop over the frames of a rich container *)

Lemma size_insert_le (t : ID3) k fr : size (<[k := fr]> t) ≤ S (size t).
Proof.
  destruct (t !! k) eqn:E.
  - rewrite map_size_insert_Some by eauto. lia.
  - rewrite map_size_insert_None by done. lia.
Qed.

Lemma clone_all_spec (lib : Library) frames (t : ID3) c w :
  ∃ t' n w',
    clone_all lib frames t c w = (Ok (t', n), w')
    ∧ c ≤ n ≤ c + length frames
    ∧ size t' + c ≤ size t + n
    ∧ (∀ k fr, t' !! k = Some fr →
         t !! k = Some fr
         ∨ ∃ key frame, (key, frame) ∈ frames
                        ∧ frame_class fr = frame_class frame
                        ∧ k = HashKey lib fr)
    ∧ fs w' = fs w ∧ fs_trace w' = fs_trace w ∧ console w' = console w.
Proof.
  revert t c w. induction frames as [|[key frame] rest IH]; intros t c w.
  - exists t, c, w. simpl. split; [done|]. split; [lia|]. split; [lia|].
    split; [by left|done].
  - cbn [clone_all]. unfold bind at 1.
    destruct (clone_cases lib t key frame w) as (t1 & b & w1 & -> & Hf1 & Hfalse & Htrue).
    cbn [fst snd].
    destruct (IH t1 (if b then c + 1 else c) w1)
      as (t' & n & w' & -> & Hn & Hsz & Hfrom & Hf & Htr & Hco).
    exists t', n, w'. split; [done|].
    destruct b.
    + destruct (Htrue eq_refl) as (-> & fr0 & -> & Hcls & _).
      split; [simpl; lia|]. split.
      { pose proof (size_insert_le t (HashKey lib fr0) fr0). lia. }
      split; [|done].
      intros k fr Hk. destruct (Hfrom k fr Hk) as [Hin|(key' & frame' & Hin & ? & ?)].
      * destruct (decide (HashKey lib fr0 = k)) as [<-|Hne].
        -- rewrite lookup_insert_eq in Hin. inversion Hin; subst.
           right. exists key, frame. split; [left|done].
        -- rewrite lookup_insert_ne in Hin by done. by left.
      * right. exists key', frame'. split; [by right|done].
    + destruct (Hfalse eq_refl) as (-> & lvl & ev & ->).
      split; [simpl; lia|]. split; [lia|].
      split; [|done].
      intros k fr Hk. destruct (Hfrom k fr Hk) as [?|(key' & frame' & Hin & ? & ?)];
        [by left|].
      right. exists key', frame'. split; [by right|done].
Qed.



(** ** The tag copy as a whole *)

#[global] Instance only_tags_of_preorder mp3 : PreOrder (only_tags_of mp3).
Proof.
  split.
  - intros w. split; [done|by left].
  - intros w1 w2 w3 [H1 H1'] [H2 H2']. split.
    + intros q Hq. rewrite (H2 q Hq). by apply H1.
    + destruct H1' as [E1|(m & t & E1 & E1')], H2' as [E2|(m' & t' & E2 & E2')].
      * left. congruence.
      * right. exists m', t'. split; [congruence|done].
      * right. exists m, t. split; [done|congruence].
      * right. rewrite E1' in E2. inversion E2; subst m'. simpl in E2'.
        exists m, t'. done.
Qed.

#[global] Instance only_tags_of_log_blind mp3 : LogBlind (only_tags_of mp3).
Proof. intros w l c. split; [done|by left]. Qed.

Lemma same_fs_only_tags mp3 w w' : same_fs w w' → only_tags_of mp3 w w'.
Proof. intros [H _]. split; [intros q _; by rewrite H | left; by rewrite H]. Qed.

Lemma save_only_tags lib (a : MP3) t :
  preserves (only_tags_of (filename a)) (save lib a t).
Proof.
  unfold save. destruct (save_fails lib (filename a) t); [pres|].
  intros w. unfold bind, read_fs. cbn [fst snd].
  destruct (fs w !! filename a) as [[|d|m|]|] eqn:E; cbn [snd raise write_fs];
    try reflexivity.
  split; cbn [fs].
  - intros q Hq. by rewrite lookup_insert_ne.
  - right. exists m, t. by rewrite lookup_insert_eq.
Qed.

(** [bind] when something is known of what the first computation returns. *)
Lemma preserves_bind_post (R : relation World) `{!PreOrder R} {A B}
    (P : A → Prop) (m : M A) (k : A → M B) :
  preserves R m →
  (∀ w a w', m w = (Ok a, w') → P a) →
  (∀ a, P a → preserves R (k a)) →
  preserves R (bind m k).
Proof.
  intros Hm HP Hk w. unfold bind. specialize (Hm w). specialize (HP w).
  destruct (m w) as [[a|e] w1]; simpl in *; [|done].
  etransitivity; [exact Hm | apply Hk; by eapply HP].
Qed.

Lemma MP3_open_filename mp3 w a w' :
  MP3_open mp3 w = (Ok a, w') → filename a = mp3.
Proof.
  unfold MP3_open, bind, read_fs. cbn.
  destruct (fs w !! mp3) as [[|d|m|]|]; intros H; inversion H; done.
Qed.

Lemma copy_tags_only_tags lib wav mp3 :
  preserves (only_tags_of mp3) (copy_tags lib wav mp3).
Proof.
  unfold copy_tags. apply (preserves_try (only_tags_of mp3)); [|intros e; pres].
  apply (preserves_bind (only_tags_of mp3)); [unfold WAVE_tags; pres|].
  intros t. destruct (tags_falsy t); [pres|].
  apply (preserves_bind_post (only_tags_of mp3) (λ a, filename a = mp3)).
  - unfold MP3_open. pres.
  - apply MP3_open_filename.
  - intros a <-. unfold _copy_id3_from_wav_id3, _copy_from_riff_info.
    destruct t; pres.
    + apply (preserves_weaken same_fs);
        [apply same_fs_only_tags | apply clone_all_same_fs].
    + apply save_only_tags.
    + apply (preserves_weaken same_fs);
        [apply same_fs_only_tags | apply riff_info_frames_same_fs].
    + apply save_only_tags.
Qed.

(** X5: copying the tags changes nothing in the file system except, at most,
    the tag block of the destination MP3: every other node is the same, and
    the destination keeps its audio source and bitrate. *)
Theorem copy_tags_touches_only_the_tag_block
    (lib : Library) (wav mp3 : path) (w : World) :
  (∀ q, q ≠ mp3 → fs (copy_tags lib wav mp3 w).2 !! q = fs w !! q)
  ∧ (fs (copy_tags lib wav mp3 w).2 !! mp3 = fs w !! mp3
     ∨ ∃ m t, fs w !! mp3 = Some (Mp3File m)
              ∧ fs (copy_tags lib wav mp3 w).2 !! mp3
                = Some (Mp3File (mkMp3 (mp3_source m) (mp3_bitrate m) (Some t)))).
Proof. apply (copy_tags_only_tags lib wav mp3 w). Qed.

Lemma copy_tags_touches_only_the_tag_block_witness :
  fs (copy_tags mutagen ["src"; "r.wav"] ["out"; "r.mp3"] (world_of flat_fs)).2
  !! ["src"; "r.wav"]
  = fs (world_of flat_fs) !! ["src"; "r.wav"].
Proof.
  destruct (copy_tags_touches_only_the_tag_block mutagen ["src"; "r.wav"] ["out"; "r.mp3"]
              (world_of flat_fs)) as [H _].
  apply H. discriminate.
Defined.

Lemma copy_tags_start lib wav mp3 w d :
  fs w !! wav = Some (WavFile d) →
  wav_tags d ≠ TagsUnreadable →
  copy_tags lib wav mp3 w =
    try_except
      (if tags_falsy (wav_tags d) then ret 0
       else
         mp3_audio <- MP3_open mp3 ;;
         match wav_tags d with
         | ID3Tags frames => _copy_id3_from_wav_id3 lib frames mp3_audio
         | InfoTags info => _copy_from_riff_info lib info mp3_audio
         | _ => ret 0
         end)
      (λ e, logging WARNING (EvTagsNotCopied wav e) ;; ret 0) w.
Proof.
  intros Hw Hd. unfold copy_tags, try_except.
  assert (HW : WAVE_tags wav w = (Ok (wav_tags d), w)).
  { unfold WAVE_tags, bind, read_fs. rewrite Hw. by destruct (wav_tags d). }
  by rewrite (bind_ok _ _ _ _ _ HW).
Qed.

(** X6: when the source has no tags or an empty container, the copy returns
    0 and changes nothing at all: the MP3 is not even opened, so a tag block
    it already has is not cleared, and nothing is logged. *)
Theorem copy_tags_nothing_to_copy
    (lib : Library) (wav mp3 : path) (w : World) (d : WavData) :
  fs w !! wav = Some (WavFile d) →
  wav_tags d = NoTags ∨ wav_tags d = ID3Tags [] ∨ wav_tags d = InfoTags ∅ →
  copy_tags lib wav mp3 w = (Ok 0, w).
Proof.
  intros Hw Hd. rewrite (copy_tags_start lib wav mp3 w d Hw).
  - by destruct Hd as [-> | [-> | ->]].
  - by destruct Hd as [-> | [-> | ->]].
Qed.

Lemma copy_tags_nothing_to_copy_witness :
  copy_tags mutagen ["src"; "broken.wav"] ["out"; "x.mp3"] (world_of broken_fs)
  = (Ok 0, world_of broken_fs).
Proof.
  apply (copy_tags_nothing_to_copy mutagen ["src"; "broken.wav"] ["out"; "x.mp3"]
           (world_of broken_fs) (mkWav false NoTags)).
  - vm_compute; reflexivity.
  - by left.
Defined.

Lemma MP3_open_ok mp3 w m :
  fs w !! mp3 = Some (Mp3File m) →
  MP3_open mp3 w = (Ok (mkMP3obj mp3 (mp3_tags m)), w).
Proof. intros H. unfold MP3_open, bind, read_fs. by rewrite H. Qed.

(** X7: when the tag block cannot be written, the copy of a rich container
    returns 0 although its frames were cloned, the file system is unchanged
    and the last log record is the warning carrying the write error. *)
Theorem copy_tags_save_failure
    (lib : Library) (wav mp3 : path) (w : World) (d : WavData) (m : Mp3Data)
    (frames : list (string * Frame)) :
  fs w !! wav = Some (WavFile d) →
  wav_tags d = ID3Tags frames →
  frames ≠ [] →
  fs w !! mp3 = Some (Mp3File m) →
  (∀ t, save_fails lib mp3 t = true) →
  ∃ w', copy_tags lib wav mp3 w = (Ok 0, w')
        ∧ fs w' = fs w
        ∧ last (log w') = Some (WARNING, EvTagsNotCopied wav SaveError).
Proof.
  intros Hw Ht Hne Hm Hs.
  rewrite (copy_tags_start lib wav mp3 w d Hw) by (by rewrite Ht).
  rewrite Ht. destruct frames as [|kf rest]; [done|]. cbn [tags_falsy].
  unfold try_except. rewrite (bind_ok _ _ _ _ _ (MP3_open_ok mp3 w m Hm)).
  unfold _copy_id3_from_wav_id3.
  destruct (clone_all_spec lib (kf :: rest) (fresh_tags (mkMP3obj mp3 (mp3_tags m))) 0 w)
    as (t' & n & w1 & Hc & _ & _ & _ & Hf & _ & _).
  rewrite (bind_ok _ _ _ _ _ Hc). cbn [fst snd].
  assert (Hsave : save lib (mkMP3obj mp3 (mp3_tags m)) t' w1 = (Raise SaveError, w1)).
  { unfold save. cbn [filename]. by rewrite Hs. }
  rewrite (bind_raise _ _ _ _ _ Hsave).
  eexists. split; [reflexivity|]. split; [exact Hf|].
  cbn [log]. apply last_snoc.
Qed.

Lemma copy_tags_save_failure_witness :
  ∃ w', copy_tags
          (mkLibrary mutagen_defaults (λ _ _, false) mutagen_HashKey
             (λ _ _, true) (λ _ _, false) true (λ _, None))
          ["src"; "a"; "1.wav"] ["out"; "a"; "1.mp3"] (world_of done_fs) = (Ok 0, w')
        ∧ fs w' = done_fs.
Proof.
  destruct (copy_tags_save_failure
              (mkLibrary mutagen_defaults (λ _ _, false) mutagen_HashKey
                 (λ _ _, true) (λ _ _, false) true (λ _, None))
              ["src"; "a"; "1.wav"] ["out"; "a"; "1.mp3"] (world_of done_fs)
              (mkWav true (ID3Tags [("TIT2", tit2_two); ("COMM:Notiz:deu", comm_deu)]))
              (mkMp3 ["src"; "a"; "1.wav"] "128k" None)
              [("TIT2", tit2_two); ("COMM:Notiz:deu", comm_deu)])
    as (w' & H1 & H2 & _).
  - vm_compute; reflexivity.
  - reflexivity.
  - discriminate.
  - vm_compute; reflexivity.
  - reflexivity.
  - exists w'. split; [exact H1 | exact H2].
Defined.

(** X8: a rich container made of text frames that the library accepts is
    copied whole: the count is the number of frames and the tag block written
    is the dictionary built from the clones in order, starting empty, whatever
    the MP3 carried before. *)
Theorem copy_tags_text_frames
    (lib : Library) (wav mp3 : path) (w : World) (d : WavData) (m : Mp3Data)
    (frames : list (string * Frame)) :
  fs w !! wav = Some (WavFile d) →
  wav_tags d = ID3Tags frames →
  frames ≠ [] →
  Forall (λ kf, clonable_text_frame lib kf.2) frames →
  fs w !! mp3 = Some (Mp3File m) →
  save_fails lib mp3 (foldl (add lib) ∅ (text_clones lib frames)) = false →
  copy_tags lib wav mp3 w
  = (Ok (length frames), saved w mp3 m (foldl (add lib) ∅ (text_clones lib frames))).
Proof.
  intros Hw Ht Hne Hall Hm Hs.
  rewrite (copy_tags_start lib wav mp3 w d Hw) by (by rewrite Ht).
  rewrite Ht. destruct frames as [|kf rest]; [done|]. cbn [tags_falsy].
  unfold try_except. rewrite (bind_ok _ _ _ _ _ (MP3_open_ok mp3 w m Hm)).
  unfold _copy_id3_from_wav_id3.
  assert (Hfresh : fresh_tags (mkMP3obj mp3 (mp3_tags m)) = ∅).
  { unfold fresh_tags. cbn [tags]. by destruct (mp3_tags m). }
  rewrite Hfresh.
  destruct (clone_all_text_frames lib (kf :: rest) ∅ 0 w Hall) as [Hc _].
  rewrite (bind_ok _ _ _ _ _ Hc). cbn [fst snd].
  assert (Hsave : save lib (mkMP3obj mp3 (mp3_tags m))
                    (foldl (add lib) ∅ (text_clones lib (kf :: rest))) w
                  = (Ok tt, saved w mp3 m (foldl (add lib) ∅ (text_clones lib (kf :: rest))))).
  { unfold save. cbn [filename]. rewrite Hs. unfold bind, read_fs. by rewrite Hm. }
  rewrite (bind_ok _ _ _ _ _ Hsave). reflexivity.
Qed.

Lemma copy_tags_text_frames_witness :
  copy_tags mutagen ["src"; "a"; "1.wav"] ["out"; "a"; "1.mp3"] (world_of done_fs)
  = (Ok 2, saved (world_of done_fs) ["out"; "a"; "1.mp3"]
             (mkMp3 ["src"; "a"; "1.wav"] "128k" None)
             (foldl (add mutagen) ∅
                (text_clones mutagen [("TIT2", tit2_two); ("COMM:Notiz:deu", comm_deu)]))).
Proof.
  apply (copy_tags_text_frames mutagen ["src"; "a"; "1.wav"] ["out"; "a"; "1.mp3"]
           (world_of done_fs)
           (mkWav true (ID3Tags [("TIT2", tit2_two); ("COMM:Notiz:deu", comm_deu)]))
           (mkMp3 ["src"; "a"; "1.wav"] "128k" None)
           [("TIT2", tit2_two); ("COMM:Notiz:deu", comm_deu)]).
  - vm_compute; reflexivity.
  - reflexivity.
  - discriminate.
  - repeat constructor; eexists; (split; [vm_compute; reflexivity | reflexivity]).
  - vm_compute; reflexivity.
  - reflexivity.
Defined.

(** ** The flat path when a value is rejected *)






(** ** The worker and the file system *)

Lemma convert_one_writes (lib : Library) wav src dst br dry w mp3 :
  resolve wav src dst = Ok mp3 →
  (∀ q n, q ≠ mp3 → fs w !! q = Some n →
          fs (convert_one lib wav src dst br dry w).2 !! q = Some n)
  ∧ (∀ q n, fs (convert_one lib wav src dst br dry w).2 !! q = Some n →
       fs w !! q = Some n
       ∨ (n = Dir ∧ ∃ k, 0 < k ≤ length (parent mp3) ∧ q = take k (parent mp3))
       ∨ q = mp3).
Proof.
  intros Hr.
  destruct (mkdir (parent mp3) w) as [[[]|e] w1] eqn:Em.
  2:{ rewrite (convert_one_mkdir_raises lib _ _ _ _ _ _ _ _ _ Hr Em). cbn [snd].
      replace w1 with (mkdir (parent mp3) w).2 by (by rewrite Em).
      split; [intros q n _; apply mkdir_keeps|].
      intros q n Hq. destruct (mkdir_only_dirs _ _ _ _ Hq); auto. }
  assert (Hk1 : ∀ q n, fs w !! q = Some n → fs w1 !! q = Some n).
  { intros q n Hq. replace w1 with (mkdir (parent mp3) w).2 by (by rewrite Em).
    by apply mkdir_keeps. }
  assert (Hn1 : ∀ q n, fs w1 !! q = Some n →
            fs w !! q = Some n
            ∨ (n = Dir ∧ ∃ k, 0 < k ≤ length (parent mp3) ∧ q = take k (parent mp3))).
  { intros q n Hq. apply mkdir_only_dirs. by rewrite Em. }
  pose proof (mkdir_ok_dirs (parent mp3) w) as Hd. rewrite Em in Hd.
  specialize (Hd eq_refl). cbn [snd] in Hd.
  rewrite (convert_one_after_mkdir lib _ _ _ _ _ _ _ _ Hr Em).
  assert (Hbase : ∀ w', fs w' = fs w1 →
            (∀ q n, q ≠ mp3 → fs w !! q = Some n → fs w' !! q = Some n)
            ∧ (∀ q n, fs w' !! q = Some n →
                 fs w !! q = Some n
                 ∨ (n = Dir ∧ ∃ k, 0 < k ≤ length (parent mp3) ∧ q = take k (parent mp3))
                 ∨ q = mp3)).
  { intros w' Hw'. rewrite Hw'. split; [intros q n _; apply Hk1|].
    intros q n Hq. destruct (Hn1 q n Hq); auto. }
  destruct (fs w1 !! mp3) as [n0|] eqn:Ex.
  { rewrite (convert_one_skips lib _ _ _ _ _ _ _ Hr Hd) by eauto. by apply Hbase. }
  destruct dry.
  { rewrite (convert_one_dry lib _ _ _ _ _ _ Hr Hd Ex). by apply Hbase. }
  rewrite (convert_one_attempt lib _ _ _ _ _ _ Hr Hd Ex).
  destruct (fs w1 !! wav) as [[|d| |]|]; try (by apply Hbase).
  destruct (wav_decodable d); [|by apply Hbase].
  destruct (export_fails lib mp3 br); [by apply Hbase|].
  cbv zeta. cbn [snd logged fs].
  destruct (copy_tags_only_tags lib wav mp3 (exported w1 mp3 wav br)) as [Ho _].
  split.
  - intros q n Hq Hq0. rewrite (Ho q Hq). cbn [exported fs].
    rewrite lookup_insert_ne by done. by apply Hk1.
  - intros q n Hq. destruct (decide (q = mp3)) as [->|Hne]; [auto|].
    rewrite (Ho q Hne) in Hq. cbn [exported fs] in Hq.
    rewrite lookup_insert_ne in Hq by done. destruct (Hn1 q n Hq); auto.
Qed.

(** X10: a worker writes nowhere but at its destination and at the
    directories above it: every other node that existed is still there
    unchanged (the source tree among them), and every node that is new is a
    directory above the destination or the destination itself. *)
Theorem convert_one_writes_only_its_destination
    (lib : Library) (wav src dst : path) (br : string) (dry : bool)
    (w : World) (mp3 : path) :
  resolve wav src dst = Ok mp3 →
  (∀ q n, q ≠ mp3 → fs w !! q = Some n →
          fs (convert_one lib wav src dst br dry w).2 !! q = Some n)
  ∧ (∀ q n, fs (convert_one lib wav src dst br dry w).2 !! q = Some n →
       fs w !! q = Some n
       ∨ (n = Dir ∧ ∃ k, 0 < k ≤ length (parent mp3) ∧ q = take k (parent mp3))
       ∨ q = mp3).
Proof. apply convert_one_writes. Qed.

Lemma convert_one_writes_only_its_destination_witness :
  fs album_after_convert !! ["src"; "a"; "1.wav"] = album_fs !! ["src"; "a"; "1.wav"].
Proof.
  destruct (album_fs !! ["src"; "a"; "1.wav"]) as [n|] eqn:E; [|vm_compute in E; discriminate].
  apply (proj1 (convert_one_writes_only_its_destination mutagen
                  ["src"; "a"; "1.wav"] ["src"] ["out"] "192k" false (world_of album_fs)
                  ["out"; "a"; "1.mp3"] eq_refl)
           ["src"; "a"; "1.wav"] n); [discriminate | exact E].
Defined.

Lemma convert_one_converted_inv (lib : Library) wav src dst br w w' :
  convert_one lib wav src dst br false w = (Ok converted, w') →
  ∃ mp3 d copied w3,
    resolve wav src dst = Ok mp3
    ∧ fs w !! mp3 = None
    ∧ fs w !! wav = Some (WavFile d) ∧ wav_decodable d = true
    ∧ export_fails lib mp3 br = false
    ∧ copy_tags lib wav mp3 (exported (mkdir (parent mp3) w).2 mp3 wav br) = (Ok copied, w3)
    ∧ w' = logged w3 INFO (EvConverted wav mp3 copied).
Proof.
  intros Hc.
  destruct (resolve wav src dst) as [mp3|e] eqn:Hr;
    [|by rewrite (convert_one_resolve_raises lib _ _ _ _ _ _ _ Hr) in Hc].
  destruct (mkdir (parent mp3) w) as [[[]|e] w1] eqn:Em;
    [|by rewrite (convert_one_mkdir_raises lib _ _ _ _ _ _ _ _ _ Hr Em) in Hc].
  pose proof (mkdir_ok_dirs (parent mp3) w) as Hd. rewrite Em in Hd.
  specialize (Hd eq_refl). cbn [snd] in Hd.
  rewrite (convert_one_after_mkdir lib _ _ _ _ _ _ _ _ Hr Em) in Hc.
  destruct (fs w1 !! mp3) as [n0|] eqn:Ex.
  { rewrite (convert_one_skips lib _ _ _ _ _ _ _ Hr Hd) in Hc by eauto. inversion Hc. }
  rewrite (convert_one_attempt lib _ _ _ _ _ _ Hr Hd Ex) in Hc.
  destruct (fs w1 !! wav) as [[|d| |]|] eqn:Ew; try (inversion Hc; fail).
  destruct (wav_decodable d) eqn:Edec; [|inversion Hc].
  destruct (export_fails lib mp3 br) eqn:Eexp; [inversion Hc|].
  cbv zeta in Hc.
  destruct (copy_tags_never_raises lib wav mp3 (exported w1 mp3 wav br)) as (n & w3 & Hct).
  rewrite Hct in Hc. cbn [fst snd copied_of] in Hc. inversion Hc; subst w'.
  exists mp3, d, n, w3. split; [done|].
  assert (Hab : fs w !! mp3 = None).
  { destruct (fs w !! mp3) as [n1|] eqn:E0; [|done].
    pose proof (mkdir_keeps (parent mp3) w _ _ E0) as Hk. rewrite Em in Hk.
    cbn [snd] in Hk. congruence. }
  split; [done|]. split.
  { pose proof (mkdir_only_dirs (parent mp3) w wav (WavFile d)) as Ho.
    rewrite Em in Ho. destruct (Ho Ew) as [?|[? _]]; done. }
  split; [done|]. split; [done|]. split; [|done].
  by rewrite Em.
Qed.

(** X11: a task that returns Converted had a decodable WAV as its source and
    no destination before; afterwards the destination is an MP3 encoded from
    that source at the requested bitrate, and the last log record is the
    conversion record with the number of tags the copy reported. *)
Theorem converted_means_encoded
    (lib : Library) (wav src dst : path) (br : string) (w w' : World) :
  convert_one lib wav src dst br false w = (Ok converted, w') →
  ∃ mp3 d m copied,
    resolve wav src dst = Ok mp3
    ∧ fs w !! mp3 = None
    ∧ fs w !! wav = Some (WavFile d) ∧ wav_decodable d = true
    ∧ fs w' !! mp3 = Some (Mp3File m)
    ∧ mp3_source m = wav ∧ mp3_bitrate m = br
    ∧ last (log w') = Some (INFO, EvConverted wav mp3 copied).
Proof.
  intros Hc.
  destruct (convert_one_converted_inv lib _ _ _ _ _ _ Hc)
    as (mp3 & d & n & w3 & Hr & Hab & Hw & Hd & _ & Hct & ->).
  destruct (copy_tags_only_tags lib wav mp3
              (exported (mkdir (parent mp3) w).2 mp3 wav br)) as [_ Ho].
  rewrite Hct in Ho. cbn [snd exported fs] in Ho. rewrite lookup_insert_eq in Ho.
  assert (∃ m, fs w3 !! mp3 = Some (Mp3File m) ∧ mp3_source m = wav ∧ mp3_bitrate m = br)
    as (m & Hm & Hs & Hb).
  { destruct Ho as [Ho|(m0 & t & Hm0 & Ho)].
    - eexists. split; [exact Ho|]. done.
    - inversion Hm0; subst m0. eexists. split; [exact Ho|]. done. }
  exists mp3, d, m, n. repeat split; try done.
  cbn [logged log]. apply last_snoc.
Qed.

Lemma converted_means_encoded_witness :
  ∃ m, fs album_after_convert !! ["out"; "a"; "1.mp3"] = Some (Mp3File m)
       ∧ mp3_source m = ["src"; "a"; "1.wav"] ∧ mp3_bitrate m = "192k".
Proof.
  destruct (converted_means_encoded mutagen ["src"; "a"; "1.wav"] ["src"] ["out"] "192k"
              (world_of album_fs) album_after_convert)
    as (mp3 & d & m & copied & H1 & _ & _ & _ & H5 & H6 & H7 & _).
  - vm_compute; reflexivity.
  - exists m. vm_compute in H1. inversion H1; subst mp3.
    split; [exact H5|]. split; [exact H6 | exact H7].
Defined.

(** ** Destinations of discovered files *)

Lemma substring_split s n :
  n ≤ String.length s →
  s = substring 0 n s +:+ substring n (String.length s - n) s.
Proof.
  revert n. induction s as [|a s IH]; intros n Hn.
  - simpl in Hn. assert (n = 0) as -> by lia. reflexivity.
  - destruct n as [|n].
    + simpl. by rewrite substring_all.
    + simpl. simpl in Hn.
      transitivity (String a (substring 0 n s +:+ substring n (String.length s - n) s));
        [f_equal; apply IH; lia | reflexivity].
Qed.

Lemma endswith_split s sfx :
  endswith s sfx = true → ∃ stem, s = stem +:+ sfx.
Proof.
  unfold endswith. intros [He Hl]%andb_true_iff.
  apply String.eqb_eq in He. apply Nat.leb_le in Hl.
  exists (substring 0 (String.length s - String.length sfx) s).
  pose proof (substring_split s (String.length s - String.length sfx)) as H.
  replace (String.length s - (String.length s - String.length sfx))
    with (String.length sfx) in H by lia.
  rewrite He in H. apply H. lia.
Qed.

Lemma str_app_inj_r s1 s2 t : s1 +:+ t = s2 +:+ t → s1 = s2.
Proof.
  revert s2. induction s1 as [|a s1 IH]; intros s2 H.
  - destruct s2 as [|b s2]; [done|]. exfalso.
    apply (f_equal String.length) in H. rewrite !str_length_app in H.
    simpl in H. lia.
  - destruct s2 as [|b s2].
    + exfalso. apply (f_equal String.length) in H. rewrite !str_length_app in H.
      simpl in H. lia.
    + change (String a (s1 +:+ t) = String b (s2 +:+ t)) in H.
      inversion H; subst. f_equal. by apply IH.
Qed.

(** A discovered name other than [.wav] itself: its stem is kept and its
    suffix replaced. *)
Lemma wav_name_destination nm :
  endswith nm ".wav" = true → nm ≠ ".wav" →
  ∃ stem, nm = stem +:+ ".wav" ∧ with_suffix_name nm ".mp3" = stem +:+ ".mp3".
Proof.
  intros [stem ->]%endswith_split Hne. exists stem. split; [done|].
  apply (with_suffix_name_replaces stem "wav" ".mp3"); [|done|reflexivity].
  intros ->. by apply Hne.
Qed.

Lemma removelast_last_eq {A} (l : list A) x :
  last l = Some x → l = removelast l ++ [x].
Proof.
  intros H. destruct l as [|a l] using rev_ind; [done|].
  rewrite last_snoc in H. inversion H; subst. by rewrite removelast_last.
Qed.

Lemma destinations_injective (f : FS) src dst wav1 wav2 mp3 :
  wav1 ∈ rglob_wav_sorted true f src →
  wav2 ∈ rglob_wav_sorted true f src →
  name wav1 ≠ ".wav" → name wav2 ≠ ".wav" →
  resolve wav1 src dst = Ok mp3 →
  resolve wav2 src dst = Ok mp3 →
  wav1 = wav2.
Proof.
  intros H1%rglob_elem H2%rglob_elem Hn1 Hn2 Hr1 Hr2.
  destruct (candidate_resolves _ _ dst _ H1)
    as (rel1 & n1 & _ & -> & Hl1 & Hlw1 & Hm1 & Hres1).
  destruct (candidate_resolves _ _ dst _ H2)
    as (rel2 & n2 & _ & -> & Hl2 & Hlw2 & Hm2 & Hres2).
  unfold name in Hn1, Hn2. rewrite Hlw1 in Hn1. rewrite Hlw2 in Hn2. cbn in Hn1, Hn2.
  rewrite Hres1 in Hr1. rewrite Hres2 in Hr2. inversion Hr1 as [E1]. rewrite <- Hr2 in Hr1.
  inversion Hr1 as [E]. apply app_inv_head in E. apply app_inj_tail in E as [Ea Eb].
  unfold matches_star_wav in Hm1, Hm2.
  destruct (wav_name_destination n1 Hm1 Hn1) as (s1 & -> & Hw1).
  destruct (wav_name_destination n2 Hm2 Hn2) as (s2 & -> & Hw2).
  rewrite Hw1, Hw2 in Eb. apply str_app_inj_r in Eb. subst s2.
  f_equal. rewrite (removelast_last_eq _ _ Hl1), (removelast_last_eq _ _ Hl2).
  by rewrite Ea.
Qed.

(** X12: on a case-sensitive platform two different discovered files never
    share a destination, provided neither is named exactly [.wav]: the
    destination determines the source. *)
Theorem discovered_files_have_distinct_destinations
    (f : FS) (src dst wav1 wav2 mp3 : path) :
  wav1 ∈ rglob_wav_sorted true f src →
  wav2 ∈ rglob_wav_sorted true f src →
  name wav1 ≠ ".wav" → name wav2 ≠ ".wav" →
  resolve wav1 src dst = Ok mp3 →
  resolve wav2 src dst = Ok mp3 →
  wav1 = wav2.
Proof. apply destinations_injective. Qed.

Lemma discovered_files_have_distinct_destinations_witness :
  ["src"; "a"; "1.wav"] = ["src"; "a"; "1.wav"].
Proof.
  apply (discovered_files_have_distinct_destinations album_fs ["src"] ["out"]
           ["src"; "a"; "1.wav"] ["src"; "a"; "1.wav"] ["out"; "a"; "1.mp3"]).
  - vm_compute. apply list_elem_of_here.
  - vm_compute. apply list_elem_of_here.
  - discriminate.
  - discriminate.
  - vm_compute; reflexivity.
  - vm_compute; reflexivity.
Defined.

(** The proviso is needed: a file named [.wav] has no suffix to replace, so
    it shares its destination with [.wav.wav]. *)
Lemma hidden_name_collision :
  resolve ["src"; ".wav"] ["src"] ["out"] = Ok ["out"; ".wav.mp3"]
  ∧ resolve ["src"; ".wav.wav"] ["src"] ["out"] = Ok ["out"; ".wav.mp3"].
Proof. split; vm_compute; reflexivity. Qed.

(** ** The outcome of a converting run *)










(** ** The first thread-pool version: reading tags *)

Lemma read_map_ok tbl t acc m :
  NoDup tbl.*2 →
  (∀ pk, pk ∈ tbl.*2 → acc !! pk = None) →
  read_map tbl t acc = Ok m →
  ∀ pk v, m !! pk = Some v
          ↔ acc !! pk = Some v
            ∨ ∃ wk, (wk, pk) ∈ tbl ∧ first_value t wk = Some (Ok v).
Proof.
  revert acc. induction tbl as [|[wk0 pk0] rest IH]; intros acc Hnd Hacc H pk v.
  - inversion H; subst. split; [auto|].
    intros [?|(wk & Hin & _)]; [done|]. by apply elem_of_nil in Hin.
  - simpl in H. rewrite fmap_cons in Hnd. apply NoDup_cons in Hnd as [Hnotin Hnd].
    destruct (first_value t wk0) as [[value|e]|] eqn:Ef; [|done|].
    + assert (Hacc' : ∀ pk', pk' ∈ rest.*2 → <[pk0 := value]> acc !! pk' = None).
      { intros pk' Hpk'. rewrite lookup_insert_ne; [|by intros <-].
        apply Hacc. rewrite fmap_cons. by right. }
      rewrite (IH (<[pk0 := value]> acc) Hnd Hacc' H).
      destruct (decide (pk0 = pk)) as [<-|Hne].
      * rewrite lookup_insert_eq. split.
        -- intros [Hv|(wk & Hin & _)].
           ++ inversion Hv; subst. right. exists wk0. split; [left|done].
           ++ exfalso. apply Hnotin. apply list_elem_of_fmap. by exists (wk, pk0).
        -- intros [Hv|(wk & Hin & Hv)].
           ++ rewrite Hacc in Hv; [done|]. rewrite fmap_cons. left.
           ++ apply elem_of_cons in Hin as [Heq|Hin].
              ** inversion Heq; subst. rewrite Ef in Hv. inversion Hv. by left.
              ** exfalso. apply Hnotin. apply list_elem_of_fmap. by exists (wk, pk0).
      * rewrite lookup_insert_ne by done. split.
        -- intros [?|(wk & Hin & Hv)]; [by left|]. right. exists wk. split; [by right|done].
        -- intros [?|(wk & Hin & Hv)]; [by left|]. right. exists wk. split; [|done].
           apply elem_of_cons in Hin as [Heq|Hin]; [|done]. inversion Heq; by subst.
    + assert (Hacc' : ∀ pk', pk' ∈ rest.*2 → acc !! pk' = None).
      { intros pk' Hpk'. apply Hacc. rewrite fmap_cons. by right. }
      rewrite (IH acc Hnd Hacc' H).
      split.
      * intros [?|(wk & Hin & Hv)]; [by left|]. right. exists wk. split; [by right|done].
      * intros [?|(wk & Hin & Hv)]; [by left|]. right. exists wk. split; [|done].
        apply elem_of_cons in Hin as [Heq|Hin]; [|done].
        inversion Heq; subst. by rewrite Ef in Hv.
Qed.

Lemma read_map_total tbl t acc :
  (∀ wk pk e, (wk, pk) ∈ tbl → first_value t wk ≠ Some (Raise e)) →
  ∃ m, read_map tbl t acc = Ok m.
Proof.
  revert acc. induction tbl as [|[wk0 pk0] rest IH]; intros acc H; simpl.
  - eauto.
  - destruct (first_value t wk0) as [[value|e]|] eqn:Ef.
    + apply IH. intros wk pk e Hin. apply (H wk pk). by right.
    + exfalso. apply (H wk0 pk0 e); [left|done].
    + apply IH. intros wk pk e Hin. apply (H wk pk). by right.
Qed.


Lemma first_value_falsy t wk : tags_falsy t = true → first_value t wk = None.
Proof.
  destruct t as [| |frames|info]; simpl; try done.
  - by destruct frames.
  - intros ->%bool_decide_eq_true. by rewrite lookup_empty.
Qed.

Lemma tag_map_NoDup : NoDup tag_map.*2.
Proof. apply NoDup_ListNoDup. vm_compute. repeat (constructor; [cbv; intuition discriminate|]). constructor. Qed.

Lemma WAVE_tags_ok wav w d :
  fs w !! wav = Some (WavFile d) → wav_tags d ≠ TagsUnreadable →
  WAVE_tags wav w = (Ok (wav_tags d), w).
Proof.
  intros Hw Hu. unfold WAVE_tags, bind, read_fs. rewrite Hw.
  by destruct (wav_tags d).
Qed.

Lemma WAVE_tags_unreadable wav w d :
  fs w !! wav = Some (WavFile d) → wav_tags d = TagsUnreadable →
  WAVE_tags wav w = (Raise ParseError, w).
Proof.
  intros Hw Hu. unfold WAVE_tags, bind, read_fs. by rewrite Hw, Hu.
Qed.

(** X15: when no mapped frame has an empty value list, [read_wav_tags]
    returns, without touching the file system, the dictionary that holds
    under each name of its table the first value of the frame found under
    the corresponding key of the container, and nothing else. *)
Theorem read_wav_tags_first_values (wav : path) (w : World) (d : WavData) :
  fs w !! wav = Some (WavFile d) →
  (∀ wk pk e, (wk, pk) ∈ tag_map → first_value (wav_tags d) wk ≠ Some (Raise e)) →
  ∃ m w',
    read_wav_tags wav w = (Ok m, w')
    ∧ fs w' = fs w ∧ fs_trace w' = fs_trace w
    ∧ ∀ pk v, m !! pk = Some v
              ↔ ∃ wk, (wk, pk) ∈ tag_map ∧ first_value (wav_tags d) wk = Some (Ok v).
Proof.
  intros Hw Hok.
  destruct (read_wav_tags wav w) as [r w'] eqn:E.
  pose proof (read_wav_tags_same_fs wav w) as [Hf Ht]. rewrite E in Hf, Ht.
  cbn [snd] in Hf, Ht.
  unfold read_wav_tags, try_except in E.
  assert (wav_tags d = TagsUnreadable ∨ wav_tags d ≠ TagsUnreadable) as [Hu|Hu]
    by (destruct (wav_tags d); auto).
  { rewrite (bind_raise _ _ _ _ _ (WAVE_tags_unreadable _ _ _ Hw Hu)) in E.
    inversion E; subst. exists ∅, (logged w WARNING (EvTagsNotRead (name wav) ParseError)).
    split; [done|]. split; [done|]. split; [done|].
    intros pk v. rewrite lookup_empty. split; [done|].
    intros (wk & _ & Hv). by rewrite Hu in Hv. }
  rewrite (bind_ok _ _ _ _ _ (WAVE_tags_ok _ _ _ Hw Hu)) in E.
  destruct (tags_falsy (wav_tags d)) eqn:Efal.
  { inversion E; subst. exists ∅, w'.
    split; [done|]. split; [done|]. split; [done|].
    intros pk v. rewrite lookup_empty. split; [done|].
    intros (wk & _ & Hv). by rewrite first_value_falsy in Hv. }
  destruct (read_map_total tag_map (wav_tags d) ∅ Hok) as [m Hm].
  rewrite (bind_ok (lift _) _ w m w) in E by (by rewrite Hm).
  assert (r = Ok m) as ->.
  { destruct (bool_decide (m = ∅)); by inversion E. }
  exists m, w'. split; [done|]. split; [done|]. split; [done|].
  intros pk v. split.
  - intros Hv. apply (read_map_ok _ _ _ _ tag_map_NoDup (λ _ _, lookup_empty _) Hm) in Hv.
    destruct Hv as [Hv|?]; [by rewrite lookup_empty in Hv|done].
  - intros Hv. apply (read_map_ok _ _ _ _ tag_map_NoDup (λ _ _, lookup_empty _) Hm). by right.
Qed.

Lemma read_wav_tags_first_values_witness :
  ∃ m w',
    read_wav_tags ["src"; "a"; "1.wav"] (world_of album_fs) = (Ok m, w')
    ∧ m !! "title" = Some "Eins" ∧ m !! "comment" = None.
Proof.
  destruct (read_wav_tags_first_values ["src"; "a"; "1.wav"] (world_of album_fs)
              (mkWav true (ID3Tags [("TIT2", tit2_two); ("COMM:Notiz:deu", comm_deu)])))
    as (m & w' & E & _ & _ & Hm).
  - vm_compute; reflexivity.
  - intros wk pk e Hin.
    repeat (apply elem_of_cons in Hin as [Heq|Hin];
            [inversion Heq; subst; vm_compute; discriminate|]).
    by apply elem_of_nil in Hin.
  - exists m, w'. split; [exact E|]. split.
    + apply Hm. exists "TIT2". split; [left | vm_compute; reflexivity].
    + destruct (m !! "comment") as [v|] eqn:Ev; [|reflexivity].
      apply Hm in Ev as (wk & Hin & Hv). exfalso.
      repeat (apply elem_of_cons in Hin as [Heq|Hin];
              [inversion Heq; subst; vm_compute in Hv; discriminate|]).
      by apply elem_of_nil in Hin.
Defined.



(** ** The first thread-pool version: the worker *)


(** X17: the first version's worker has the path computation and the
    directory creation inside its [try]: a source outside the source root, or
    a destination directory blocked by a file, comes back as the status
    "error" with an error record, where the worker of the second version lets
    the same exception escape. *)
Theorem first_version_catches_path_errors
    (lib : Library) (wav src dst : path) (br : string) (dry : bool)
    (w : World) (e : exn) :
  (resolve wav src dst = Raise e →
   process_file lib wav src dst br w
   = (Ok "error", logged w ERROR (EvErrorName (name wav) e))
   ∧ convert_one lib wav src dst br dry w = (Raise e, w))
  ∧ (∀ mp3 w1,
       resolve wav src dst = Ok mp3 →
       mkdir (parent mp3) w = (Raise e, w1) →
       process_file lib wav src dst br w
       = (Ok "error", logged w1 ERROR (EvErrorName (name wav) e))
       ∧ convert_one lib wav src dst br dry w = (Raise e, w1)).
Proof.
  split.
  - intros Hr. split; [|by apply convert_one_resolve_raises].
    unfold process_file, try_except. by rewrite Hr.
  - intros mp3 w1 Hr Hm. split; [|by apply (convert_one_mkdir_raises lib _ _ _ _ _ _ mp3)].
    unfold process_file, try_except. rewrite Hr.
    rewrite (bind_ok (lift (Ok mp3)) _ _ mp3 _ eq_refl).
    by rewrite (bind_raise _ _ _ _ _ Hm).
Qed.

Lemma first_version_catches_path_errors_witness :
  (process_file mutagen ["other"; "x.wav"] ["src"] ["out"] "192k"
     (world_of album_fs)).1 = Ok "error"
  ∧ (convert_one mutagen ["other"; "x.wav"] ["src"] ["out"] "192k" false
       (world_of album_fs)).1 = Raise ValueError
  ∧ (process_file mutagen ["src"; "a"; "1.wav"] ["src"] ["out"] "192k"
       (world_of blocked_fs)).1 = Ok "error"
  ∧ (convert_one mutagen ["src"; "a"; "1.wav"] ["src"] ["out"] "192k" false
       (world_of blocked_fs)).1 = Raise FileExistsError.
Proof.
  destruct (first_version_catches_path_errors mutagen ["other"; "x.wav"] ["src"] ["out"]
              "192k" false (world_of album_fs) ValueError) as [H _].
  destruct H as [H1 H2]; [vm_compute; reflexivity|].
  destruct (first_version_catches_path_errors mutagen ["src"; "a"; "1.wav"] ["src"] ["out"]
              "192k" false (world_of blocked_fs) FileExistsError) as [_ H].
  destruct (H ["out"; "a"; "1.mp3"] (world_of blocked_fs)) as [H3 H4];
    [vm_compute; reflexivity | vm_compute; reflexivity |].
  rewrite H1, H2, H3, H4. repeat split.
Defined.



(** ** What every run leaves behind *)

Lemma setup_logging_grows log_file : preserves grows (setup_logging log_file).
Proof.
  intros w. unfold setup_logging, bind, read_fs. cbn [fst snd].
  destruct (fs w !! log_file) as [[|d|m|]|] eqn:E; simpl; try reflexivity.
  apply grows_write. intros n0 Hn0. congruence.
Qed.

Lemma setup_logging_creates log_file w :
  fs w !! log_file ≠ Some Dir →
  (setup_logging log_file w).1 = Ok tt
  ∧ is_Some (fs (setup_logging log_file w).2 !! log_file).
Proof.
  intros Hnd. unfold setup_logging, bind, read_fs. cbn [fst snd].
  destruct (fs w !! log_file) as [[|d|m|]|] eqn:E; try done; simpl;
    try (split; [done|]; rewrite E; eauto; fail).
  split; [done|]. rewrite lookup_insert_eq. eauto.
Qed.

Lemma dry_run_loop_same_fs files src dst a b :
  preserves same_fs (dry_run_loop files src dst a b).
Proof.
  revert a b. induction files as [|wav rest IH]; intros a b; simpl.
  - pres.
  - unfold exists_. pres; apply IH.
Qed.

Lemma collect_same_fs futs c s f : preserves same_fs (collect futs c s f).
Proof.
  revert c s f. induction futs as [|fut rest IH]; intros c s f; cbn [collect].
  - pres.
  - pres; apply IH.
Qed.

Lemma run_tail_grows (lib : Library) (files : list path) src dst br (dry : bool) pc :
  preserves grows
    (match files with
     | [] => console_print PrNoWavFiles
     | _ =>
         console_print (PrFound (length files)) ;;
         (if dry then console_print PrDryRunActive else ret tt) ;;
         (if (0 <? pc)%Z then preview_tags files (Z.to_nat pc) else ret tt) ;;
         if dry then
           r <- dry_run_loop files src dst 0 0 ;;
           console_print (PrDryRunTable r.1 r.2)
         else
           futures <- submit_all lib files src dst br ;;
           r <- collect futures 0 0 0 ;;
           console_print (PrResultTable r.1.1 r.1.2 r.2) ;;
           logging INFO (EvDone r.1.1 r.1.2 r.2)
     end).
Proof.
  assert (Hp : ∀ l n, preserves grows (preview_tags l n)).
  { intros l n. unfold preview_tags.
    apply (preserves_weaken same_fs); [apply same_fs_grows|].
    pres. apply preview_loop_same_fs. }
  destruct files as [|f0 files0]; [pres|].
  set (files := f0 :: files0).
  pres; try apply Hp.
  - apply (preserves_weaken same_fs); [apply same_fs_grows | apply dry_run_loop_same_fs].
  - apply submit_all_grows.
  - apply (preserves_weaken same_fs); [apply same_fs_grows | apply collect_same_fs].
Qed.

(** X19: every run whose source directory exists, a dry run and a run that
    finds no file included, leaves the destination root as a directory and a
    log file in it, whatever the workers did afterwards. *)
Theorem run_leaves_destination_root_and_log
    (lib : Library) (src dst : path) (br : string) (workers : nat)
    (dry : bool) (pc : Z) (w : World) :
  is_Some (node_at (fs w) src) →
  creatable (fs w) dst →
  fs w !! (dst ++ ["conversion.log"]) ≠ Some Dir →
  dirs_ok (fs (run_conversion lib src dst br workers dry pc w).2) dst
  ∧ is_Some (fs (run_conversion lib src dst br workers dry pc w).2
             !! (dst ++ ["conversion.log"])).
Proof.
  intros Hsrc Hcr Hlog.
  pose proof (mkdir_creatable _ _ Hcr) as Hm.
  pose proof (mkdir_ok_dirs dst w Hm) as Hdirs.
  assert (Em : mkdir dst w = (Ok tt, (mkdir dst w).2)).
  { destruct (mkdir dst w) as [r w1]. simpl in *. by subst. }
  set (w1 := (mkdir dst w).2) in *.
  destruct (setup_logging_creates (dst ++ ["conversion.log"]) w1
              (log_file_not_created_by_mkdir dst w Hlog)) as [Hs1 Hs2].
  pose proof (setup_logging_grows (dst ++ ["conversion.log"]) w1) as [Hg _].
  assert (Es : setup_logging (dst ++ ["conversion.log"]) w1
               = (Ok tt, (setup_logging (dst ++ ["conversion.log"]) w1).2)).
  { destruct (setup_logging (dst ++ ["conversion.log"]) w1) as [r w2].
    simpl in *. by subst. }
  set (w2 := (setup_logging (dst ++ ["conversion.log"]) w1).2) in *.
  unfold run_conversion.
  rewrite (bind_ok _ _ _ _ _ (exists_eq src w)).
  rewrite bool_decide_eq_true_2 by done. cbn [negb].
  rewrite (bind_ok _ _ _ _ _ Em). cbv zeta.
  rewrite (bind_ok _ _ _ _ _ Es).
  rewrite (bind_ok (logging _ _) _ w2 tt _ eq_refl).
  rewrite (bind_ok read_fs _ _ _ _ eq_refl).
  match goal with
  | |- context [fs (?m ?w3).2] =>
      pose proof (run_tail_grows lib
                    (rglob_wav_sorted (glob_case_sensitive lib) (fs w3) src)
                    src dst br dry pc w3) as [Hg3 _]
  end.
  cbn [fs] in Hg3. split.
  - eapply dirs_ok_grows; [exact Hg3|]. cbn [fs].
    eapply dirs_ok_grows; [exact Hg|]. exact Hdirs.
  - eapply is_Some_grows; [exact Hg3|]. exact Hs2.
Qed.

Lemma run_leaves_destination_root_and_log_witness :
  fs (world_of upper_fs) !! ["out"] = None
  ∧ fs (main mutagen (sample_args true) (world_of upper_fs)).2 !! ["out"] = Some Dir
  ∧ is_Some (fs (main mutagen (sample_args true) (world_of upper_fs)).2
             !! ["out"; "conversion.log"]).
Proof.
  split; [vm_compute; reflexivity|].
  destruct (run_leaves_destination_root_and_log mutagen ["src"] ["out"] "192k" 2 true 0
              (world_of upper_fs)) as [H1 H2].
  - eexists. vm_compute; reflexivity.
  - intros k n Hk Hn. destruct k as [|[|k]]; simpl in Hk; try lia.
    vm_compute in Hn. discriminate.
  - vm_compute. discriminate.
  - split; [|exact H2]. apply (H1 1). simpl. lia.
Defined.

(** ** The preview *)



